(** * The ARC documentation scraper and processor

    A shallow embedding of [umich-arc-scraper.py] (class [ARCDocScraper]) and
    of the page loader and link-graph builder of [umich-arc-processor.py]
    (class [ARCDocProcessor]), with the properties of the crawl engine.

    Conventions.
    - A Python [str] is a [string]; the text handled here is ASCII. The
      character classes ([\w] of [re], white space) and [urlparse] are
      modelled on ASCII text, where they are the library's; a theorem that
      depends on one of them beyond that says on which URLs it holds
      ([plain_url]).
    - A Python [dict] used as a map is a [gmap], a [set] is a [gset].
    - The network is a function from URLs to fetched documents
      ([None]: the GET failed or answered with an error status).
    - Files written with [json.dump] are kept as the dumped value; the
      textual JSON layer of the standard library is not part of the model.
    - Log lines are not modelled. *)

From Stdlib Require Import Ascii DecimalNat DecimalString.
From stdpp Require Import gmap strings list fin_maps.

(** ** Python string operations *)

Module Str.

(** [s.startswith(p)] *)
Definition startswith (s p : string) : bool := String.prefix p s.

(** [s.endswith(suf)] *)
Fixpoint endswith (s suf : string) : bool :=
  if String.eqb s suf then true
  else match s with
       | EmptyString => false
       | String _ s' => endswith s' suf
       end.

(** [sub in s] *)
Fixpoint contains (sub s : string) : bool :=
  if String.prefix sub s then true
  else match s with
       | EmptyString => false
       | String _ s' => contains sub s'
       end.

(** [c in s] for a single character *)
Fixpoint mem (c : ascii) (s : string) : bool :=
  match s with
  | EmptyString => false
  | String d s' => if Ascii.eqb c d then true else mem c s'
  end.

(** [s.split(c, 1)] when [c] occurs in [s]: the text before the first
    occurrence and the text after it. *)
Fixpoint split1 (c : ascii) (s : string) : option (string * string) :=
  match s with
  | EmptyString => None
  | String d s' =>
      if Ascii.eqb c d then Some (EmptyString, s')
      else match split1 c s' with
           | Some (a, b) => Some (String d a, b)
           | None => None
           end
  end.

(** The same split at the LAST occurrence of [c]. *)
Fixpoint rsplit1 (c : ascii) (s : string) : option (string * string) :=
  match s with
  | EmptyString => None
  | String d s' =>
      match rsplit1 c s' with
      | Some (a, b) => Some (String d a, b)
      | None => if Ascii.eqb c d then Some (EmptyString, s') else None
      end
  end.

Fixpoint map (f : ascii -> ascii) (s : string) : string :=
  match s with
  | EmptyString => EmptyString
  | String c s' => String (f c) (map f s')
  end.

Fixpoint filter (f : ascii -> bool) (s : string) : string :=
  match s with
  | EmptyString => EmptyString
  | String c s' => if f c then String c (filter f s') else filter f s'
  end.

Fixpoint forallb (f : ascii -> bool) (s : string) : bool :=
  match s with
  | EmptyString => true
  | String c s' => f c && forallb f s'
  end.

(** [s.lstrip(chars)] with the character class given as a predicate *)
Fixpoint lstrip (f : ascii -> bool) (s : string) : string :=
  match s with
  | EmptyString => EmptyString
  | String c s' => if f c then lstrip f s' else s
  end.

Fixpoint rev_app (s acc : string) : string :=
  match s with
  | EmptyString => acc
  | String c s' => rev_app s' (String c acc)
  end.

Definition rev (s : string) : string := rev_app s EmptyString.

Definition rstrip (f : ascii -> bool) (s : string) : string :=
  rev (lstrip f (rev s)).

(** [sep.join(l)] *)
Fixpoint join (sep : string) (l : list string) : string :=
  match l with
  | [] => EmptyString
  | [x] => x
  | x :: l' => x +:+ sep +:+ join sep l'
  end.

Definition code (c : ascii) : nat := nat_of_ascii c.

Definition between (lo hi : nat) (c : ascii) : bool :=
  (lo <=? code c) && (code c <=? hi).

Definition is_upper (c : ascii) : bool := between 65 90 c.
Definition is_lower (c : ascii) : bool := between 97 122 c.
Definition is_alpha (c : ascii) : bool := is_upper c || is_lower c.
Definition is_digit (c : ascii) : bool := between 48 57 c.

(** [str.isspace] on ASCII: TAB, LF, VT, FF, CR, FS, GS, RS, US, SPACE.
    Outside ASCII Python has further white space (NEL, NBSP and others),
    which this class does not have. *)
Definition is_space (c : ascii) : bool :=
  between 9 13 c || between 28 32 c.

(** [c.isascii()] *)
Definition is_ascii (c : ascii) : bool := code c <? 128.

Definition to_lower (c : ascii) : ascii :=
  if is_upper c then ascii_of_nat (code c + 32) else c.

(** [s.lower()] *)
Definition lower (s : string) : string := map to_lower s.

(** [s.strip()] *)
Definition strip (s : string) : string := rstrip is_space (lstrip is_space s).

(** [str(n)] for a natural number *)
Definition of_nat (n : nat) : string := NilZero.string_of_uint (Nat.to_uint n).

End Str.

(** ** [urllib.parse.urlparse]

    The six components that [urlparse] returns, computed as CPython's
    [urlsplit] followed by the parameter split of [urlparse] computes them.

    [urlsplit] does not return on every string: it raises [ValueError] when
    the network location has a [[] without a []] or a []] without a [[],
    in recent versions of the library also when the brackets do not enclose
    an IP literal, and when a network location that is not ASCII turns into
    one with a delimiter under NFKC normalisation. [urlparse] below gives the
    components where [urlsplit] returns; it does not model the exception.
    [plain_url] further down names URLs on which none of these checks
    fires. *)

Record ParseResult := mkParseResult {
  scheme : string;
  netloc : string;
  path : string;
  params : string;
  query : string;
  fragment : string
}.

Definition scheme_char (c : ascii) : bool :=
  Str.is_alpha c || Str.is_digit c || Str.mem c "+-.".

(** [_WHATWG_C0_CONTROL_OR_SPACE] *)
Definition c0_control_or_space (c : ascii) : bool := Str.code c <=? 32.

(** not one of [_UNSAFE_URL_BYTES_TO_REMOVE] (TAB, CR, LF) *)
Definition safe_url_byte (c : ascii) : bool :=
  negb ((Str.code c =? 9) || (Str.code c =? 13) || (Str.code c =? 10)).

(** The scheme split: [i = url.find(':')], [i > 0], the first character an
    ASCII letter and every character before the colon a scheme character. *)
Definition split_scheme (url : string) : string * string :=
  match Str.split1 ":"%char url with
  | Some (String c0 pre, rest) =>
      if Str.is_alpha c0 && Str.forallb scheme_char (String c0 pre)
      then (Str.lower (String c0 pre), rest)
      else (EmptyString, url)
  | _ => (EmptyString, url)
  end.

Definition netloc_delim (c : ascii) : bool := Str.mem c "/?#".

(** [_splitnetloc(url, 2)] after the leading [//] has been removed: the text
    up to the first of [/], [?], [#], and the text from there on. *)
Fixpoint splitnetloc (s : string) : string * string :=
  match s with
  | EmptyString => (EmptyString, EmptyString)
  | String c s' =>
      if netloc_delim c then (EmptyString, s)
      else let '(a, b) := splitnetloc s' in (String c a, b)
  end.

Definition split_netloc (url : string) : string * string :=
  match url with
  | String "/"%char (String "/"%char rest) => splitnetloc rest
  | _ => (EmptyString, url)
  end.

Definition split_or (c : ascii) (s : string) : string * string :=
  match Str.split1 c s with
  | Some p => p
  | None => (s, EmptyString)
  end.

Definition uses_params : list string :=
  [""; "ftp"; "hdl"; "prospero"; "http"; "imap"; "https"; "shttp"; "rtsp";
   "rtspu"; "sip"; "sips"; "mms"; "sftp"; "tel"].

(** [_splitparams]: the first [;] of the last path segment starts the
    parameters. *)
Definition splitparams (url : string) : string * string :=
  match Str.rsplit1 "/"%char url with
  | Some (dir, last) =>
      match Str.split1 ";"%char last with
      | Some (a, b) => (dir +:+ "/" +:+ a, b)
      | None => (url, EmptyString)
      end
  | None => split_or ";"%char url
  end.

Definition urlparse (url0 : string) : ParseResult :=
  let url := Str.filter safe_url_byte (Str.lstrip c0_control_or_space url0) in
  let '(sch, url) := split_scheme url in
  let '(loc, url) := split_netloc url in
  let '(url, frag) := split_or "#"%char url in
  let '(url, qry) := split_or "?"%char url in
  let '(url, prm) :=
    if bool_decide (sch ∈ uses_params) && Str.mem ";"%char url
    then splitparams url else (url, EmptyString) in
  mkParseResult sch loc url prm qry frag.

(** A URL of ASCII characters whose network location has no bracket: on
    these [urlsplit] raises nothing (its bracket checks look at a network
    location with a bracket, its normalisation check at one that is not
    ASCII), and the ASCII character classes of this file are Python's. *)
Definition plain_url (url : string) : bool :=
  Str.forallb Str.is_ascii url
  && negb (Str.mem "["%char (netloc (urlparse url)))
  && negb (Str.mem "]"%char (netloc (urlparse url))).

(** ** The scraper: constants and the URL classifier *)

Definition BASE_URL : string :=
  "https://documentation.its.umich.edu/advanced-research-computing".
Definition OUTPUT_DIR : string := "umich_arc_docs".
Definition DELAY : nat := 1.
Definition MAX_PAGES : nat := 1000.

Definition DOC_HOST : string := "documentation.its.umich.edu".

Definition NON_HTML_EXTENSIONS : list string :=
  [".pdf"; ".doc"; ".docx"; ".jpg"; ".png"; ".gif"].

(** [ARCDocScraper.is_valid_url] *)
Definition is_valid_url (url : string) : bool :=
  let parsed_url := urlparse url in
  if negb (Str.contains DOC_HOST (netloc parsed_url)) then false
  else if existsb (fun ext => Str.endswith url ext) NON_HTML_EXTENSIONS then false
  else true.

(** ** Fetched documents

    What the scraper reads off a parsed document: the text of the [title]
    element if there is one, and the first [div.region-content] if there is
    one, with its text nodes in document order and its anchors that carry an
    [href]. *)

Record Anchor := mkAnchor {
  href : string;
  anchor_strings : list string
}.

Record Tag := mkTag {
  tag_strings : list string;
  tag_anchors : list Anchor
}.

Record Soup := mkSoup {
  soup_title : option string;
  region_content : option Tag
}.

(** [tag.get_text(separator=sep, strip=True)]: every text node stripped, the
    empty ones dropped, the rest joined. *)
Definition get_text (sep : string) (strs : list string) : string :=
  Str.join sep (filter (fun t => t ≠ EmptyString) (Str.strip <$> strs)).

(** ** Page records *)

Record LinkRef := mkLink {
  l_url : string;
  l_text : string
}.

Record PageInfo := mkPage {
  p_url : string;
  p_title : string;
  p_content : string;
  p_links : list LinkRef
}.

Global Instance LinkRef_eq_dec : EqDecision LinkRef.
Proof. solve_decision. Defined.

Global Instance PageInfo_eq_dec : EqDecision PageInfo.
Proof. solve_decision. Defined.

(** ** Files and observable effects *)

Inductive File :=
  | PageFile (page_info : PageInfo)
  | LinkMapFile (m : gmap string (list string))
  | VisitedFile (urls : list string)
  | IndexFile (total_pages : nat) (entries : list (string * string * nat))
  | GraphFile (nodes : list (string * string))
              (edges : list (string * string * string)).

Inductive Event :=
  | EvGet (url : string)
  | EvWrite (filepath : string)
  | EvSleep (seconds : nat).

(** [os.path.join(a, b)] on POSIX *)
Definition os_path_join (a b : string) : string :=
  if Str.startswith b "/" then b
  else if String.eqb a "" || Str.endswith a "/" then a +:+ b
  else a +:+ "/" +:+ b.

(** ** The scraper object *)

Record Scraper := mkScraper {
  base_url : string;
  output_dir : string;
  delay : nat;
  visited_urls : gset string;
  pages : gmap string PageInfo;
  link_map : gmap string (list string);
  fs : gmap string File;
  trace : list Event
}.

(** [ARCDocScraper.__init__], on a given file system *)
Definition init (base output : string) (d : nat) (files : gmap string File) : Scraper :=
  mkScraper base output d ∅ ∅ ∅ files [].

Definition new_scraper : Scraper := init BASE_URL OUTPUT_DIR DELAY ∅.

Definition set_visited_urls (v : gset string) (s : Scraper) : Scraper :=
  mkScraper (base_url s) (output_dir s) (delay s) v (pages s) (link_map s)
            (fs s) (trace s).

Definition set_pages (p : gmap string PageInfo) (s : Scraper) : Scraper :=
  mkScraper (base_url s) (output_dir s) (delay s) (visited_urls s) p
            (link_map s) (fs s) (trace s).

Definition set_link_map (m : gmap string (list string)) (s : Scraper) : Scraper :=
  mkScraper (base_url s) (output_dir s) (delay s) (visited_urls s) (pages s) m
            (fs s) (trace s).

Definition emit (e : Event) (s : Scraper) : Scraper :=
  mkScraper (base_url s) (output_dir s) (delay s) (visited_urls s) (pages s)
            (link_map s) (fs s) (trace s ++ [e]).

(** [with open(filepath, 'w') as f: json.dump(data, f)] *)
Definition write_file (filepath : string) (data : File) (s : Scraper) : Scraper :=
  emit (EvWrite filepath)
    (mkScraper (base_url s) (output_dir s) (delay s) (visited_urls s) (pages s)
               (link_map s) (<[filepath := data]> (fs s)) (trace s)).

(** [time.sleep(self.delay)] *)
Definition sleep (s : Scraper) : Scraper := emit (EvSleep (delay s)) s.

(** [re.sub(r'[^\w\-.]', '_', name)]. [is_word] is [\w] on ASCII characters:
    letters, digits and [_]. On text that is not ASCII Python's [\w] also
    has the letters and digits of Unicode, which [safe_char] would replace;
    the theorems on the characters of a file name are for ASCII URLs. *)
Definition is_word (c : ascii) : bool :=
  Str.is_alpha c || Str.is_digit c || Ascii.eqb c "_".

Definition safe_char (c : ascii) : ascii :=
  if is_word c || Ascii.eqb c "-" || Ascii.eqb c "." then c else "_"%char.

Definition slash_to_underscore (c : ascii) : ascii :=
  if Ascii.eqb c "/" then "_"%char else c.

(** The file name that [save_page] derives from the page's URL. *)
Definition page_filename (url : string) : string :=
  let parsed_url := urlparse url in
  let filename := Str.map slash_to_underscore (path parsed_url) in
  let filename := if String.eqb filename "" then "index" else filename in
  let filename := Str.map safe_char filename in
  if negb (String.eqb (query parsed_url) "")
  then filename +:+ "_" +:+ Str.map safe_char (query parsed_url)
  else filename.

Definition page_filepath (s : Scraper) (page_info : PageInfo) : string :=
  os_path_join (output_dir s) (page_filename (p_url page_info) +:+ ".json").

(** [ARCDocScraper.save_page] *)
Definition save_page (page_info : PageInfo) (s : Scraper) : string * Scraper :=
  let filepath := page_filepath s page_info in
  (filepath, write_file filepath (PageFile page_info) s).

Definition link_map_path (s : Scraper) : string :=
  os_path_join (output_dir s) "link_map.json".

Definition visited_urls_path (s : Scraper) : string :=
  os_path_join (output_dir s) "visited_urls.json".

(** [ARCDocScraper.save_progress]; [list(self.visited_urls)] is the set's
    elements in an order the language does not fix. *)
Definition save_progress (s : Scraper) : Scraper :=
  let s := write_file (link_map_path s) (LinkMapFile (link_map s)) s in
  write_file (visited_urls_path s) (VisitedFile (elements (visited_urls s))) s.

(** [ARCDocScraper.create_index] *)
Definition create_index (s : Scraper) : Scraper :=
  let entries :=
    (fun kv : string * PageInfo =>
       (kv.1, p_title kv.2, length (p_links kv.2))) <$> map_to_list (pages s) in
  write_file (os_path_join (output_dir s) "index.json")
             (IndexFile (size (pages s)) entries) s.

(** ** Fetching, extraction and the crawl loop *)

(** The local variables of [crawl]. *)
Record Locals := mkLocals {
  urls_to_visit : list string;
  page_counter : nat
}.

(** The [for link in page_info['links']] loop of [crawl] does two independent
    things with a link: it may append the target to the queue, and it appends
    the target to the link map entry of the page. [enqueue] and [record_link]
    are these two effects on their own (lemma [follow_links_split]). *)
Definition enqueue (visited : gset string) (queue : list string)
    (target : string) : list string :=
  if bool_decide ((target ∉ visited) ∧ (target ∉ queue)
                  ∧ Str.contains DOC_HOST target = true)
  then queue ++ [target] else queue.

Definition record_link (url : string) (lm : gmap string (list string))
    (target : string) : gmap string (list string) :=
  <[url := default [] (lm !! url) ++ [target]]> lm.

(** The URLs that were requested, in order. *)
Definition fetched (t : list Event) : list string :=
  omap (fun e => match e with EvGet url => Some url | _ => None end) t.

(** The link map entry that belongs to a page record: its link targets in
    order, and no entry at all for a page without links. *)
Definition targets_of (page_info : PageInfo) : option (list string) :=
  match p_links page_info with
  | [] => None
  | links => Some (l_url <$> links)
  end.

(** What holds of the scraper's maps between any two loop turns. *)
Record consistent (s : Scraper) : Prop := mkConsistent {
  pages_visited : dom (pages s) ⊆ visited_urls s;
  link_map_pages : forall url, link_map s !! url = pages s !! url ≫= targets_of;
  fetched_once : NoDup (fetched (trace s));
  fetched_visited : forall url, url ∈ fetched (trace s) -> url ∈ visited_urls s
}.

(** The queue has no duplicates and holds no visited URL. *)
Definition queue_ok (s : Scraper) (l : Locals) : Prop :=
  NoDup (urls_to_visit l) ∧ forall url, url ∈ urls_to_visit l -> url ∉ visited_urls s.

Section Crawl.

(** The site being crawled, and [urllib.parse.urljoin]. *)
Variable web : string -> option Soup.
Variable urljoin : string -> string -> string.

(** [ARCDocScraper.get_soup]: one GET; any failure is caught and gives
    [None]. *)
Definition get_soup (url : string) (s : Scraper) : option Soup * Scraper :=
  (web url, emit (EvGet url) s).

(** The body of the [for link in main_content.find_all('a', href=True)]
    loop of [extract_page_info]. *)
Definition extract_link (url : string) (link : Anchor) : option LinkRef :=
  let full_url := urljoin url (href link) in
  if is_valid_url full_url then
    let link_text := get_text "" (anchor_strings link) in
    Some (mkLink full_url
                 (if String.eqb link_text "" then "No Link Text" else link_text))
  else None.

(** [ARCDocScraper.extract_page_info] *)
Definition extract_page_info (soup : Soup) (url : string) : PageInfo :=
  let title :=
    match soup_title soup with
    | Some t => Str.strip t
    | None => "No Title"
    end in
  match region_content soup with
  | Some main_content =>
      mkPage url title
             (get_text (String "010" EmptyString) (tag_strings main_content))
             (omap (extract_link url) (tag_anchors main_content))
  | None => mkPage url title "" []
  end.

(** One turn of the [for link in page_info['links']] loop of [crawl], on
    the queue and the link map. *)
Definition follow_link (visited : gset string) (url : string)
    (acc : list string * gmap string (list string)) (link : LinkRef)
    : list string * gmap string (list string) :=
  let '(queue, lm) := acc in
  let link_url := l_url link in
  let queue :=
    if negb (bool_decide (link_url ∈ visited))
       && negb (bool_decide (link_url ∈ queue))
    then if Str.contains DOC_HOST link_url then queue ++ [link_url] else queue
    else queue in
  let lm := match lm !! url with
            | None => <[url := []]> lm
            | Some _ => lm
            end in
  (queue, alter (fun targets => targets ++ [link_url]) url lm).

Definition loop_cond (l : Locals) : bool :=
  negb (bool_decide (urls_to_visit l = [])) && (page_counter l <? MAX_PAGES).

(** The body of the [while] loop of [crawl]. *)
Definition loop_body (s : Scraper) (l : Locals) : Scraper * Locals :=
  match urls_to_visit l with
  | [] => (s, l)
  | url :: rest =>
      if bool_decide (url ∈ visited_urls s) then
        (s, mkLocals rest (page_counter l))
      else
        let s := set_visited_urls ({[url]} ∪ visited_urls s) s in
        let counter := page_counter l + 1 in
        let '(soup, s) := get_soup url s in
        match soup with
        | None => (s, mkLocals rest counter)
        | Some soup =>
            let page_info := extract_page_info soup url in
            let s := set_pages (<[url := page_info]> (pages s)) s in
            let s := (save_page page_info s).2 in
            let '(queue, lm) :=
              foldl (follow_link (visited_urls s) url) (rest, link_map s)
                    (p_links page_info) in
            let s := set_link_map lm s in
            let s := if counter mod 10 =? 0 then save_progress s else s in
            let s := sleep s in
            (s, mkLocals queue counter)
        end
  end.

(** The state after at most [n] turns of the [while] loop. *)
Fixpoint iterate (n : nat) (s : Scraper) (l : Locals) : Scraper * Locals :=
  match n with
  | 0 => (s, l)
  | S n' =>
      if loop_cond l then
        let '(s', l') := loop_body s l in iterate n' s' l'
      else (s, l)
  end.

Definition start_locals (s : Scraper) (start_url : option string) : Locals :=
  mkLocals [default (base_url s) start_url] 0.

(** [ARCDocScraper.crawl]. The loop has left by its condition after at
    most [MAX_PAGES] turns (lemma [crawl_loop_exits] below). *)
Definition crawl (start_url : option string) (s : Scraper) : Scraper :=
  save_progress (iterate MAX_PAGES s (start_locals s start_url)).1.

(** [ARCDocScraper.run] *)
Definition run (start_url : option string) (s : Scraper) : Scraper :=
  create_index (crawl start_url s).

(** The script's main block on a scraper [s]. *)
Definition main (s : Scraper) : Scraper :=
  let s := crawl (Some BASE_URL) s in
  let s := crawl (Some (BASE_URL +:+ "?page=1")) s in
  create_index s.

(** The scrapers that a run which is in [s0] can get to: any number of
    loop turns (of this or of a later [crawl] call, whatever its queue and
    counter) and of progress and index writes. *)
Inductive run_from (s0 : Scraper) : Scraper -> Prop :=
  | run_here : run_from s0 s0
  | run_turn s l : run_from s0 s -> run_from s0 (loop_body s l).1
  | run_progress s : run_from s0 s -> run_from s0 (save_progress s)
  | run_index s : run_from s0 s -> run_from s0 (create_index s).

(** The scrapers a freshly constructed one can get to. *)
Definition reachable (s : Scraper) : Prop :=
  exists base output d files, run_from (init base output d files) s.

End Crawl.

(** The targets of all anchors of the main content region, resolved against
    the page's URL: the links of a page before any of them is dropped. *)
Definition raw_targets (urljoin : string -> string -> string) (soup : Soup)
    (url : string) : list string :=
  match region_content soup with
  | Some main_content => (fun link => urljoin url (href link)) <$> tag_anchors main_content
  | None => []
  end.

(** ** The loop turn as a relation

    The four ways a turn of the loop can go, with the scraper and the local
    variables after it spelled out ([loop_body_turn] below shows that
    [loop_body] takes exactly these turns). *)

(** The files after a successful visit: the page file, and the two checkpoint
    files when the counter is a multiple of ten. *)
Definition fs_after (s : Scraper) (page_info : PageInfo)
    (lm : gmap string (list string)) (v : gset string) (counter : nat)
    : gmap string File :=
  let files := <[page_filepath s page_info := PageFile page_info]> (fs s) in
  if counter mod 10 =? 0
  then <[visited_urls_path s := VisitedFile (elements v)]>
         (<[link_map_path s := LinkMapFile lm]> files)
  else files.

(** The events of a successful visit. *)
Definition visit_events (s : Scraper) (page_info : PageInfo) (counter : nat)
    : list Event :=
  [EvGet (p_url page_info); EvWrite (page_filepath s page_info)]
  ++ (if counter mod 10 =? 0
      then [EvWrite (link_map_path s); EvWrite (visited_urls_path s)]
      else [])
  ++ [EvSleep (delay s)].

Section Turns.

Variable web : string -> option Soup.
Variable urljoin : string -> string -> string.

Inductive turn (s : Scraper) (l : Locals) : Scraper -> Locals -> Prop :=
  | turn_empty :
      urls_to_visit l = [] ->
      turn s l s l
  | turn_skip url rest :
      urls_to_visit l = url :: rest ->
      url ∈ visited_urls s ->
      turn s l s (mkLocals rest (page_counter l))
  | turn_failed url rest :
      urls_to_visit l = url :: rest ->
      url ∉ visited_urls s ->
      web url = None ->
      turn s l
           (emit (EvGet url)
                 (set_visited_urls ({[url]} ∪ visited_urls s) s))
           (mkLocals rest (page_counter l + 1))
  | turn_fetched url rest soup :
      urls_to_visit l = url :: rest ->
      url ∉ visited_urls s ->
      web url = Some soup ->
      let page_info := extract_page_info urljoin soup url in
      let targets := l_url <$> p_links page_info in
      let v := {[url]} ∪ visited_urls s in
      let lm := foldl (record_link url) (link_map s) targets in
      let counter := page_counter l + 1 in
      turn s l
           (mkScraper (base_url s) (output_dir s) (delay s) v
                      (<[url := page_info]> (pages s)) lm
                      (fs_after s page_info lm v counter)
                      (trace s ++ visit_events s page_info counter))
           (mkLocals (foldl (enqueue v) rest targets) counter).

End Turns.

Global Arguments os_path_join : simpl never.

(** ** The processor: loading the page files and exporting the link graph *)

(** A [networkx.DiGraph] as far as the processor uses it: every node with its
    [title] attribute when one was set, every edge with its [text]
    attribute. *)
Record DiGraph := mkDiGraph {
  g_nodes : gmap string (option string);
  g_edges : gmap (string * string) string
}.

Definition empty_graph : DiGraph := mkDiGraph ∅ ∅.

(** [graph.add_node(n, title=t)] *)
Definition add_node (n t : string) (g : DiGraph) : DiGraph :=
  mkDiGraph (<[n := Some t]> (g_nodes g)) (g_edges g).

(** The node that [add_edge] creates for an end point it does not know yet
    carries no attribute. *)
Definition touch_node (n : string) (nodes : gmap string (option string))
    : gmap string (option string) :=
  match nodes !! n with
  | Some _ => nodes
  | None => <[n := None]> nodes
  end.

(** [graph.add_edge(u, v, text=t)] *)
Definition add_edge (u v t : string) (g : DiGraph) : DiGraph :=
  mkDiGraph (touch_node v (touch_node u (g_nodes g)))
            (<[(u, v) := t]> (g_edges g)).

Record Processor := mkProcessor {
  input_dir : string;
  proc_output_dir : string;
  proc_pages : gmap string PageInfo;
  graph : DiGraph;
  proc_fs : gmap string File
}.

(** [ARCDocProcessor.__init__], on a given file system *)
Definition new_processor (input output : string) (files : gmap string File)
    : Processor :=
  mkProcessor input output ∅ empty_graph files.

(** [s] without its prefix [pre], if it starts with it *)
Fixpoint removeprefix (pre s : string) : option string :=
  match pre, s with
  | EmptyString, _ => Some s
  | String a pre', String b s' =>
      if Ascii.eqb a b then removeprefix pre' s' else None
  | String _ _, EmptyString => None
  end.

Definition dir_prefix (dir : string) : string :=
  if String.eqb dir "" || Str.endswith dir "/" then dir else dir +:+ "/".

(** The name under which [filepath] shows in [os.listdir(dir)], if it lies
    below [dir]: the first component of the path after the directory. *)
Definition entry_name (dir filepath : string) : option string :=
  match removeprefix (dir_prefix dir) filepath with
  | Some rest => Some (split_or "/" rest).1
  | None => None
  end.

(** [os.listdir(dir)], in an order the system does not fix *)
Definition listdir (dir : string) (files : gmap string File) : list string :=
  remove_dups (omap (fun kv => entry_name dir kv.1) (map_to_list files)).

Definition RESERVED_NAMES : list string :=
  ["index.json"; "link_map.json"; "visited_urls.json"].

(** The test of [load_data] on a directory entry. *)
Definition is_page_file (filename : string) : bool :=
  Str.endswith filename ".json" && negb (bool_decide (filename ∈ RESERVED_NAMES)).

(** One turn of the loop of [load_data]. A file that cannot be opened, or
    whose content has no ['url'], raises inside the [try] and is skipped. *)
Definition load_file (dir : string) (files : gmap string File)
    (acc : gmap string PageInfo) (filename : string) : gmap string PageInfo :=
  if is_page_file filename then
    match files !! os_path_join dir filename with
    | Some (PageFile page_data) => <[p_url page_data := page_data]> acc
    | _ => acc
    end
  else acc.

(** [ARCDocProcessor.load_data] *)
Definition load_data (p : Processor) : Processor :=
  mkProcessor (input_dir p) (proc_output_dir p)
    (foldl (load_file (input_dir p) (proc_fs p)) (proc_pages p)
           (listdir (input_dir p) (proc_fs p)))
    (graph p) (proc_fs p).

(** The inner loop of [build_link_graph]: the links of one page. *)
Definition add_page_edges (known : gmap string PageInfo) (g : DiGraph)
    (kv : string * PageInfo) : DiGraph :=
  foldl (fun g link =>
           match known !! l_url link with
           | Some _ => add_edge kv.1 (l_url link) (l_text link) g
           | None => g
           end)
        g (p_links kv.2).

(** [{'id': node, 'title': graph.nodes[node]['title']}]; a node without a
    title raises [KeyError]. *)
Definition export_node (kv : string * option string) : option (string * string) :=
  match kv.2 with
  | Some t => Some (kv.1, t)
  | None => None
  end.

Definition export_edge (kv : string * string * string) : string * string * string :=
  kv.

(** [ARCDocProcessor.build_link_graph]; [None] when the export raises. *)
Definition build_link_graph (p : Processor) : option Processor :=
  let items := map_to_list (proc_pages p) in
  let g := foldl (fun g kv => add_node kv.1 (p_title kv.2) g) (graph p) items in
  let g := foldl (add_page_edges (proc_pages p)) g items in
  match mapM export_node (map_to_list (g_nodes g)) with
  | Some nodes =>
      let edges := export_edge <$> map_to_list (g_edges g) in
      Some (mkProcessor (input_dir p) (proc_output_dir p) (proc_pages p) g
              (<[os_path_join (proc_output_dir p) "link_graph.json" :=
                   GraphFile nodes edges]> (proc_fs p)))
  | None => None
  end.

(** The export that [build_link_graph] wrote. *)
Definition link_graph_file (p : Processor) : option File :=
  proc_fs p !! os_path_join (proc_output_dir p) "link_graph.json".

(** The nodes of the graph once every known page has been added. *)
Definition page_nodes (known : gmap string PageInfo) : gmap string (option string) :=
  (fun page => Some (p_title page)) <$> known.

(** Every edge joins two known pages and carries the text of a link of its
    source page to its target. *)
Definition edges_ok (known : gmap string PageInfo) (g : DiGraph) : Prop :=
  forall u v t, g_edges g !! (u, v) = Some t ->
    is_Some (known !! v)
    ∧ exists page link, known !! u = Some page ∧ link ∈ p_links page
                        ∧ l_url link = v ∧ l_text link = t.

(** ** Example sites

    Small sites on which the definitions above are run. Every [href] in them
    is an absolute URL; on those [urljoin] returns the [href] itself. *)

Module Site.

Definition urljoin (base href : string) : string := href.

Definition link_to (target : string) : Anchor := mkAnchor target [" link "].

Definition page (targets : list string) : Soup :=
  mkSoup (Some " Page ") (Some (mkTag ["Text"] (link_to <$> targets))).

Definition serve (site : list (string * Soup)) (url : string) : option Soup :=
  (list_to_map site : gmap string Soup) !! url.

Definition child (n : nat) : string := BASE_URL +:+ "/" +:+ Str.of_nat n.

Definition children (n : nat) : list string := child <$> seq 1 n.

(** A page with two in-scope links and one link to a PDF. *)
Definition guide_pdf : string := BASE_URL +:+ "/guide.pdf".
Definition with_pdf : string -> option Soup :=
  serve [(BASE_URL, page [child 1; child 2; guide_pdf])].

(** No page answers. *)
Definition dead : string -> option Soup := fun _ => None.

(** A listing page with a thousand links, none of which answers. *)
Definition hub : string -> option Soup :=
  serve [(BASE_URL, page (children 1000))].

(** A listing page with ten links: the ninth does not answer, the others
    are pages without links. *)
Definition listing : string -> option Soup :=
  serve ((BASE_URL, page (children 10))
         :: ((fun n => (child n, page [])) <$> [1; 2; 3; 4; 5; 6; 7; 8; 10])).

(** The site's root, a URL with an empty path. *)
Definition root_url : string := "https://documentation.its.umich.edu".
Definition root_record : PageInfo := mkPage root_url "Home" "Welcome" [].

(** Two URLs that differ in the scheme only. *)
Definition faq_http : string := "http://documentation.its.umich.edu/faq?page=1".
Definition faq_https : string := "https://documentation.its.umich.edu/faq?page=1".

End Site.

(** ** Further observations and the rest of the processor *)

(** The pauses of a run, in order. *)
Definition sleeps (t : list Event) : list nat :=
  omap (fun e => match e with EvSleep seconds => Some seconds | _ => None end) t.

(** The links of the pages stored since [s0] that are waiting or done. *)
Definition links_followed (s0 s : Scraper) (l : Locals) : Prop :=
  ∀ url page_info link,
    pages s !! url = Some page_info -> pages s0 !! url = None ->
    link ∈ p_links page_info -> Str.contains DOC_HOST (l_url link) = true ->
    l_url link ∈ visited_urls s ∨ l_url link ∈ urls_to_visit l.

(** The characters that [save_page] and [get_html_filename] let through. *)
Definition safe_name_char (c : ascii) : bool :=
  is_word c || Ascii.eqb c "-" || Ascii.eqb c ".".

(** What [load_data] takes from a directory entry: the page record in it,
    if the entry passes the name test and holds one. *)
Definition loadable (dir : string) (files : gmap string File)
    (filename : string) : option PageInfo :=
  if is_page_file filename then
    match files !! os_path_join dir filename with
    | Some (PageFile page_data) => Some page_data
    | _ => None
    end
  else None.

(** Every page file holds a record of the page store. *)
Definition page_files_stored (s : Scraper) : Prop :=
  forall filepath page_info,
    fs s !! filepath = Some (PageFile page_info) ->
    pages s !! p_url page_info = Some page_info.

(** [s.split(c)] *)
Fixpoint split_all (c : ascii) (s : string) : list string :=
  match s with
  | EmptyString => [EmptyString]
  | String d s' =>
      if Ascii.eqb c d then EmptyString :: split_all c s'
      else match split_all c s' with
           | part :: parts => String d part :: parts
           | [] => [String d EmptyString]
           end
  end.

Definition is_slash (c : ascii) : bool := Ascii.eqb c "/".

(** The category that [categorize_pages] gives a URL: the first part of
    [parsed_url.path.strip('/').split('/')], or ["root"] when that is
    empty. *)
Definition category_of (url : string) : string :=
  let parsed_url := urlparse url in
  let path_parts :=
    split_all "/" (Str.rstrip is_slash (Str.lstrip is_slash (path parsed_url))) in
  match path_parts with
  | first :: _ => if String.eqb first "" then "root" else first
  | [] => "root"
  end.

(** [self.categories[category].append(url)] on a [defaultdict(list)] *)
Definition add_to_category (categories : gmap string (list string))
    (kv : string * PageInfo) : gmap string (list string) :=
  let category := category_of kv.1 in
  <[category := default [] (categories !! category) ++ [kv.1]]> categories.

(** [ARCDocProcessor.categorize_pages], with [self.categories] passed in and
    out. The pages are taken in the order of [map_to_list]; Python takes
    them in the order in which [load_data] stored them, which follows
    [os.listdir] and is not fixed. The value dumped into [categories.json]
    is an object from strings to lists of strings, the shape of a link map
    file. *)
Definition categorize_pages (categories : gmap string (list string))
    (p : Processor) : gmap string (list string) * Processor :=
  let categories := foldl add_to_category categories (map_to_list (proc_pages p)) in
  (categories,
   mkProcessor (input_dir p) (proc_output_dir p) (proc_pages p) (graph p)
     (<[os_path_join (proc_output_dir p) "categories.json" :=
          LinkMapFile categories]> (proc_fs p))).

Definition equals_to_underscore (c : ascii) : ascii :=
  if Ascii.eqb c "=" then "_"%char else c.

(** [ARCDocProcessor.get_html_filename] *)
Definition get_html_filename (url : string) : string :=
  let parsed_url := urlparse url in
  let filename := Str.map slash_to_underscore (path parsed_url) in
  let filename :=
    if negb (String.eqb (query parsed_url) "")
    then filename +:+ "_" +:+ Str.map equals_to_underscore (query parsed_url)
    else filename in
  let filename := Str.map safe_char filename in
  let filename := if String.eqb filename "" then "index" else filename in
  filename +:+ ".html".

(** * Properties *)

Local Arguments Nat.modulo : simpl never.

(** The [let]s that a case analysis on [turn] leaves in the context. *)
Ltac unlet := repeat match goal with x := _ |- _ => subst x end.

(** ** The link loop *)

Section LinkLoop.

Variable visited : gset string.
Variable url : string.

Lemma follow_link_split queue lm link :
  follow_link visited url (queue, lm) link
  = (enqueue visited queue (l_url link), record_link url lm (l_url link)).
Proof.
  unfold follow_link, enqueue, record_link. f_equal.
  - destruct (Str.contains DOC_HOST (l_url link)) eqn:Hc;
      repeat case_bool_decide; simpl; try done; naive_solver.
  - apply map_eq. intros k. destruct (decide (k = url)) as [->|Hk].
    + rewrite lookup_alter_eq, lookup_insert_eq.
      destruct (lm !! url) as [t|] eqn:E; simpl; [by rewrite E|].
      by rewrite lookup_insert_eq.
    + rewrite lookup_alter_ne, lookup_insert_ne by done.
      destruct (lm !! url); [done|]. by rewrite lookup_insert_ne.
Qed.

Lemma follow_links_split links queue lm :
  foldl (follow_link visited url) (queue, lm) links
  = (foldl (enqueue visited) queue (l_url <$> links),
     foldl (record_link url) lm (l_url <$> links)).
Proof.
  revert queue lm. induction links as [|x links IH]; intros; [done|].
  cbn [foldl fmap list_fmap]. by rewrite follow_link_split, IH.
Qed.

Lemma record_links_lookup targets lm :
  foldl (record_link url) lm targets !! url
  = match targets with
    | [] => lm !! url
    | _ => Some (default [] (lm !! url) ++ targets)
    end.
Proof.
  revert lm. induction targets as [|x targets IH]; intros lm; simpl; [done|].
  rewrite IH. unfold record_link. rewrite lookup_insert_eq. simpl.
  destruct targets; simpl; [done|].
  by rewrite <- app_assoc.
Qed.

Lemma record_links_other targets lm k :
  k ≠ url -> foldl (record_link url) lm targets !! k = lm !! k.
Proof.
  intros Hk. revert lm.
  induction targets as [|x targets IH]; intros lm; simpl; [done|].
  rewrite IH. unfold record_link. by rewrite lookup_insert_ne.
Qed.

(** The queue only grows at its tail, by targets that are neither visited
    nor queued. *)
Lemma enqueue_all_spec targets queue :
  ∃ added,
    foldl (enqueue visited) queue targets = queue ++ added
    ∧ (NoDup queue -> NoDup (queue ++ added))
    ∧ ∀ a, a ∈ added ->
        (a ∉ visited) ∧ (a ∉ queue) ∧ a ∈ targets
        ∧ Str.contains DOC_HOST a = true.
Proof.
  revert queue. induction targets as [|x targets IH]; intros queue; simpl.
  { exists []. rewrite app_nil_r. split_and!; [done..|]. by intros a ?%elem_of_nil. }
  unfold enqueue at 2. case_bool_decide as Hx.
  - destruct (IH (queue ++ [x])) as (added & -> & Hnd & Hin).
    exists (x :: added). rewrite <- app_assoc. simpl. split_and!; [done| |].
    + intros Hq. rewrite cons_middle, (assoc_L (++)).
      apply Hnd. apply NoDup_app. split_and!; [done| |apply NoDup_singleton].
      intros y Hy ->%list_elem_of_singleton. naive_solver.
    + intros a [->|Ha]%elem_of_cons.
      * destruct Hx as (?&?&?). split_and!; [done..|left|done].
      * destruct (Hin a Ha) as (?&Hq&?&?). split_and!; [done| |by right|done].
        intros ?. apply Hq. apply elem_of_app. by left.
  - destruct (IH queue) as (added & -> & Hnd & Hin).
    exists added. split_and!; [done..|].
    intros a Ha. destruct (Hin a Ha) as (?&?&?&?). split_and!; [done..|by right|done].
Qed.

(** Fresh, distinct, in-site targets are all queued, in order. *)
Lemma enqueue_all_fresh targets queue :
  NoDup (queue ++ targets) ->
  (∀ a, a ∈ targets -> (a ∉ visited) ∧ Str.contains DOC_HOST a = true) ->
  foldl (enqueue visited) queue targets = queue ++ targets.
Proof.
  revert queue. induction targets as [|x targets IH]; intros queue Hnd Hok; simpl.
  { by rewrite app_nil_r. }
  rewrite cons_middle, (assoc_L (++)) in Hnd.
  unfold enqueue at 2. rewrite bool_decide_true.
  - rewrite IH; [by rewrite <- app_assoc|done|].
    intros a Ha. apply Hok. by right.
  - destruct (Hok x) as [? ?]; [by left|]. split_and!; [done| |done].
    apply NoDup_app in Hnd as (Hnd & _ & _).
    apply NoDup_app in Hnd as (_ & Hnd & _).
    intros Hx. apply (Hnd x Hx). by left.
Qed.

End LinkLoop.

(** ** One turn of the crawl loop *)

Section Turn.

Variable web : string -> option Soup.
Variable urljoin : string -> string -> string.

Local Abbreviation loop_body := (loop_body web urljoin).
Local Abbreviation extract_page_info := (extract_page_info urljoin).

(** A URL that is already visited is dropped: nothing else changes. *)
Lemma loop_body_skip s url rest c :
  url ∈ visited_urls s ->
  loop_body s (mkLocals (url :: rest) c) = (s, mkLocals rest c).
Proof. intros Hv. unfold loop_body. simpl. by rewrite bool_decide_true. Qed.

(** A failed fetch: the URL is visited and counted, and that is all. *)
Lemma loop_body_failed s url rest c :
  url ∉ visited_urls s -> web url = None ->
  loop_body s (mkLocals (url :: rest) c)
  = ((get_soup web url (set_visited_urls ({[url]} ∪ visited_urls s) s)).2,
     mkLocals rest (c + 1)).
Proof.
  intros Hv Hw. unfold loop_body. simpl.
  rewrite bool_decide_false by done. by rewrite Hw.
Qed.

(** [loop_body] takes one of the four turns. *)
Lemma loop_body_turn s l :
  turn web urljoin s l (loop_body s l).1 (loop_body s l).2.
Proof.
  destruct l as [[|url rest] c].
  { by apply turn_empty. }
  destruct (decide (url ∈ visited_urls s)) as [Hv|Hv].
  { rewrite loop_body_skip by done. by eapply turn_skip. }
  destruct (web url) as [soup|] eqn:Hw.
  - assert (loop_body s (mkLocals (url :: rest) c)
            = (mkScraper (base_url s) (output_dir s) (delay s)
                 ({[url]} ∪ visited_urls s)
                 (<[url := extract_page_info soup url]> (pages s))
                 (foldl (record_link url) (link_map s)
                    (l_url <$> p_links (extract_page_info soup url)))
                 (fs_after s (extract_page_info soup url)
                    (foldl (record_link url) (link_map s)
                       (l_url <$> p_links (extract_page_info soup url)))
                    ({[url]} ∪ visited_urls s) (c + 1))
                 (trace s ++ visit_events s (extract_page_info soup url) (c + 1)),
               mkLocals (foldl (enqueue ({[url]} ∪ visited_urls s)) rest
                           (l_url <$> p_links (extract_page_info soup url)))
                        (c + 1))) as ->.
    { unfold loop_body. cbn [urls_to_visit page_counter].
      rewrite bool_decide_false by done. cbn [get_soup]. rewrite Hw.
      assert (p_url (extract_page_info soup url) = url) as Hu.
      { unfold extract_page_info. by destruct (region_content soup). }
      destruct s as [b o d v p lm f t].
      cbv beta iota zeta delta
        [save_page fs_after visit_events sleep save_progress write_file emit
         set_link_map set_pages set_visited_urls page_filepath link_map_path
         visited_urls_path base_url output_dir delay visited_urls pages
         link_map fs trace fst snd].
      rewrite follow_links_split, Hu.
      destruct ((c + 1) mod 10 =? 0); rewrite <- ?app_assoc; reflexivity. }
    by eapply (turn_fetched web urljoin _ (mkLocals (url :: rest) c)).
  - rewrite loop_body_failed by done.
    by eapply (turn_failed web urljoin _ (mkLocals (url :: rest) c)).
Qed.

End Turn.

(** ** Invariants of a run *)

Section Runs.

Variable web : string -> option Soup.
Variable urljoin : string -> string -> string.

Local Abbreviation loop_body := (loop_body web urljoin).
Local Abbreviation iterate := (iterate web urljoin).
Local Abbreviation crawl := (crawl web urljoin).
Local Abbreviation turn := (turn web urljoin).
Local Abbreviation run_from := (run_from web urljoin).
Local Abbreviation reachable := (reachable web urljoin).

Lemma extract_page_info_url soup url :
  p_url (extract_page_info urljoin soup url) = url.
Proof. unfold extract_page_info. by destruct (region_content soup). Qed.

Lemma fetched_app t1 t2 : fetched (t1 ++ t2) = fetched t1 ++ fetched t2.
Proof. apply omap_app. Qed.

Lemma fetched_visit_events s page_info counter :
  fetched (visit_events s page_info counter) = [p_url page_info].
Proof. unfold visit_events. by destruct (counter mod 10 =? 0). Qed.

(** What a turn appends to the trace: at most one request, for a URL that
    was not visited before the turn and is visited after it. *)
Lemma turn_trace s l s' l' :
  turn s l s' l' ->
  ∃ t, trace s' = trace s ++ t
       ∧ ∀ url, url ∈ fetched t -> (url ∉ visited_urls s) ∧ url ∈ visited_urls s'.
Proof.
  intros [ | url rest ? ? | url rest ? Hv ? | url rest soup ? Hv ? ]; unlet.
  - exists []. rewrite app_nil_r. split; [done|]. by intros ? ?%elem_of_nil.
  - exists []. rewrite app_nil_r. split; [done|]. by intros ? ?%elem_of_nil.
  - exists [EvGet url]. split; [done|].
    intros u ->%list_elem_of_singleton. simpl. set_solver.
  - eexists. split; [done|]. rewrite fetched_visit_events, extract_page_info_url.
    intros u ->%list_elem_of_singleton. simpl. set_solver.
Qed.

Lemma turn_visited_mono s l s' l' :
  turn s l s' l' -> visited_urls s ⊆ visited_urls s'.
Proof. intros [ | | | ]; unlet; simpl; set_solver. Qed.

Lemma turn_consistent s l s' l' :
  consistent s -> turn s l s' l' -> consistent s'.
Proof.
  intros [Hpv Hlm Hnd Hfv] Ht.
  destruct Ht as [ | url rest ? ? | url rest ? Hv ? | url rest soup ? Hv ? ];
    unlet; [done|done| |].
  - split; simpl; [set_solver|done| |].
    + rewrite fetched_app. simpl. apply NoDup_app. split_and!; [done| |apply NoDup_singleton].
      intros u Hu ->%list_elem_of_singleton. by apply Hv, Hfv.
    + intros u. rewrite fetched_app. simpl.
      intros [?| ->%list_elem_of_singleton]%elem_of_app; set_solver.
  - assert (pages s !! url = None) as Hp.
    { apply not_elem_of_dom. set_solver. }
    split; simpl.
    + rewrite dom_insert_L. set_solver.
    + intros u. destruct (decide (u = url)) as [->|Hu].
      * rewrite lookup_insert_eq, record_links_lookup, Hlm, Hp. simpl.
        unfold targets_of. by destruct (p_links _).
      * rewrite lookup_insert_ne, record_links_other by done. apply Hlm.
    + rewrite fetched_app, fetched_visit_events, extract_page_info_url.
      apply NoDup_app. split_and!; [done| |apply NoDup_singleton].
      intros u Hu ->%list_elem_of_singleton. by apply Hv, Hfv.
    + intros u. rewrite fetched_app, fetched_visit_events, extract_page_info_url.
      intros [?| ->%list_elem_of_singleton]%elem_of_app; set_solver.
Qed.

Lemma save_progress_fields s :
  visited_urls (save_progress s) = visited_urls s
  ∧ pages (save_progress s) = pages s
  ∧ link_map (save_progress s) = link_map s
  ∧ trace (save_progress s)
    = trace s ++ [EvWrite (link_map_path s); EvWrite (visited_urls_path s)].
Proof. destruct s. cbn. by rewrite <- app_assoc. Qed.

Lemma create_index_fields s :
  visited_urls (create_index s) = visited_urls s
  ∧ pages (create_index s) = pages s
  ∧ link_map (create_index s) = link_map s
  ∧ trace (create_index s)
    = trace s ++ [EvWrite (os_path_join (output_dir s) "index.json")].
Proof. by destruct s. Qed.

Lemma save_progress_consistent s : consistent s -> consistent (save_progress s).
Proof.
  intros [Hpv Hlm Hnd Hfv].
  destruct (save_progress_fields s) as (Ev & Ep & El & Et).
  split; rewrite ?Ev, ?Ep, ?El, ?Et, ?fetched_app; simpl;
    rewrite ?app_nil_r; done.
Qed.

Lemma create_index_consistent s : consistent s -> consistent (create_index s).
Proof.
  intros [Hpv Hlm Hnd Hfv].
  destruct (create_index_fields s) as (Ev & Ep & El & Et).
  split; rewrite ?Ev, ?Ep, ?El, ?Et, ?fetched_app; simpl;
    rewrite ?app_nil_r; done.
Qed.

Lemma init_consistent base output d files : consistent (init base output d files).
Proof.
  split; simpl.
  - set_solver.
  - intros u. by rewrite !lookup_empty.
  - apply NoDup_nil_2.
  - by intros ? ?%elem_of_nil.
Qed.

Lemma run_from_consistent s0 s :
  consistent s0 -> run_from s0 s -> consistent s.
Proof.
  intros H0. induction 1 as [ | s l _ IH | s _ IH | s _ IH ]; [done| | |].
  - eapply turn_consistent; [exact IH|apply loop_body_turn].
  - by apply save_progress_consistent.
  - by apply create_index_consistent.
Qed.

Lemma reachable_consistent s : reachable s -> consistent s.
Proof.
  intros (base & output & d & files & Hrun).
  eapply run_from_consistent; [apply init_consistent|done].
Qed.

Lemma run_from_trans s0 s1 s2 :
  run_from s0 s1 -> run_from s1 s2 -> run_from s0 s2.
Proof. intros H1. induction 1; [done|by constructor..]. Qed.

(** Visited URLs stay visited, and no later request goes to one of them. *)
Lemma run_from_trace s0 s :
  run_from s0 s ->
  visited_urls s0 ⊆ visited_urls s
  ∧ ∃ t, trace s = trace s0 ++ t
         ∧ ∀ url, url ∈ fetched t -> url ∉ visited_urls s0.
Proof.
  induction 1 as [ | s l _ (Hsub & t & Ht & Hf) | s _ (Hsub & t & Ht & Hf)
                   | s _ (Hsub & t & Ht & Hf) ].
  - split; [done|]. exists []. rewrite app_nil_r. split; [done|].
    by intros ? ?%elem_of_nil.
  - pose proof (loop_body_turn web urljoin s l) as Hturn.
    split; [etrans; [done|by eapply turn_visited_mono]|].
    destruct (turn_trace _ _ _ _ Hturn) as (t' & Ht' & Hf').
    exists (t ++ t'). rewrite Ht', Ht, <- app_assoc. split; [done|].
    intros u. rewrite fetched_app. intros [?|Hu]%elem_of_app; [by apply Hf|].
    destruct (Hf' u Hu). set_solver.
  - destruct (save_progress_fields s) as (Ev & _ & _ & Et).
    rewrite Ev, Et, Ht. split; [done|]. eexists. rewrite <- app_assoc.
    split; [done|]. intros u. rewrite fetched_app. simpl. rewrite app_nil_r. apply Hf.
  - destruct (create_index_fields s) as (Ev & _ & _ & Et).
    rewrite Ev, Et, Ht. split; [done|]. eexists. rewrite <- app_assoc.
    split; [done|]. intros u. rewrite fetched_app. simpl. rewrite app_nil_r. apply Hf.
Qed.

Lemma iterate_S n s l :
  iterate (S n) s l
  = if loop_cond l then iterate n (loop_body s l).1 (loop_body s l).2 else (s, l).
Proof. simpl. by destruct (loop_body s l). Qed.

Lemma iterate_run_from n s l : run_from s (iterate n s l).1.
Proof.
  revert s l. induction n as [|n IH]; intros s l; [constructor|].
  rewrite iterate_S. destruct (loop_cond l); [|constructor].
  eapply run_from_trans; [|apply IH]. by do 2 constructor.
Qed.

Lemma crawl_run_from start s : run_from s (crawl start s).
Proof. unfold crawl. constructor. apply iterate_run_from. Qed.

End Runs.

(** ** The counter, the queue and the end of the loop *)

Section Loop.

Variable web : string -> option Soup.
Variable urljoin : string -> string -> string.

Local Abbreviation loop_body := (loop_body web urljoin).
Local Abbreviation iterate := (iterate web urljoin).
Local Abbreviation crawl := (crawl web urljoin).
Local Abbreviation turn := (turn web urljoin).

Lemma MAX_PAGES_pos : 0 < MAX_PAGES.
Proof. unfold MAX_PAGES. lia. Qed.

Lemma loop_cond_true l :
  loop_cond l = true ↔ urls_to_visit l ≠ [] ∧ page_counter l < MAX_PAGES.
Proof.
  unfold loop_cond. rewrite andb_true_iff, negb_true_iff, bool_decide_eq_false.
  by rewrite Nat.ltb_lt.
Qed.

Lemma loop_cond_start s start : loop_cond (start_locals s start) = true.
Proof. apply loop_cond_true. split; [done|apply MAX_PAGES_pos]. Qed.

Lemma size_visit (url : string) (v : gset string) :
  url ∉ v -> size ({[url]} ∪ v) = S (size v).
Proof. intros Hv. rewrite size_union by set_solver. by rewrite size_singleton. Qed.

(** Every turn that counts a page adds exactly one URL to the visited set. *)
Lemma turn_count s l s' l' :
  turn s l s' l' ->
  size (visited_urls s') + page_counter l = size (visited_urls s) + page_counter l'
  ∧ page_counter l ≤ page_counter l' ≤ page_counter l + 1.
Proof.
  intros [ | url rest ? ? | url rest ? Hv ? | url rest soup ? Hv ? ]; unlet;
    simpl; rewrite ?size_visit by done; lia.
Qed.

Lemma iterate_count n s l :
  page_counter l ≤ MAX_PAGES ->
  size (visited_urls (iterate n s l).1) + page_counter l
  = size (visited_urls s) + page_counter (iterate n s l).2
  ∧ page_counter l ≤ page_counter (iterate n s l).2 ≤ MAX_PAGES.
Proof.
  revert s l. induction n as [|n IH]; intros s l Hc; [simpl; lia|].
  rewrite iterate_S. destruct (loop_cond l) eqn:Hl; [|simpl; lia].
  apply loop_cond_true in Hl as [_ Hl].
  pose proof (turn_count _ _ _ _ (loop_body_turn web urljoin s l)) as [H1 H2].
  destruct (IH (loop_body s l).1 (loop_body s l).2) as [H3 H4]; lia.
Qed.

Lemma turn_queue_ok s l s' l' :
  queue_ok s l -> turn s l s' l' -> queue_ok s' l'.
Proof.
  intros [Hnd Hq] Ht.
  destruct Ht as [ | url rest E ? | url rest E Hv ? | url rest soup E Hv ? ];
    unlet; [done| | |]; rewrite E in Hnd, Hq; apply NoDup_cons in Hnd as [Hu Hnd].
  - split; simpl; [done|]. intros u Hin. apply Hq. by right.
  - split; simpl; [done|]. intros u Hin.
    assert (u ∉ visited_urls s) by (apply Hq; by right). set_solver.
  - destruct (enqueue_all_spec ({[url]} ∪ visited_urls s)
                (l_url <$> p_links (extract_page_info urljoin soup url)) rest)
      as (added & Eq & Hnd' & Hadd).
    split; simpl; rewrite Eq; [by apply Hnd'|].
    intros u [Hin|Hin]%elem_of_app; [|by apply Hadd].
    assert (u ∉ visited_urls s) by (apply Hq; by right). set_solver.
Qed.

Lemma iterate_queue_ok n s l :
  queue_ok s l -> queue_ok (iterate n s l).1 (iterate n s l).2.
Proof.
  revert s l. induction n as [|n IH]; intros s l Hq; [done|].
  rewrite iterate_S. destruct (loop_cond l); [|done].
  apply IH. eapply turn_queue_ok; [done|apply loop_body_turn].
Qed.

(** The queue is first in, first out: a turn takes the head and appends
    new URLs at the tail. *)
Lemma turn_fifo s l s' l' url rest :
  turn s l s' l' -> urls_to_visit l = url :: rest ->
  ∃ added, urls_to_visit l' = rest ++ added
           ∧ ∀ a, a ∈ added -> (a ∉ visited_urls s') ∧ a ∉ rest.
Proof.
  intros Ht E.
  destruct Ht as [ E' | url' rest' E' ? | url' rest' E' Hv ?
                 | url' rest' soup E' Hv ? ]; unlet;
    rewrite E in E'; simplify_eq; simpl.
  1,2: exists []; rewrite app_nil_r; split; [done|]; by intros ? ?%elem_of_nil.
  destruct (enqueue_all_spec ({[url']} ∪ visited_urls s)
              (l_url <$> p_links (extract_page_info urljoin soup url')) rest')
    as (added & Eq & _ & Hadd).
  exists added. split; [done|]. intros a Ha. by destruct (Hadd a Ha) as (?&?&_).
Qed.

(** With a queue of unvisited URLs every turn counts a page, so the loop
    is over once the counter has room for no more. *)
Lemma iterate_exits n s l :
  queue_ok s l -> MAX_PAGES ≤ page_counter l + n ->
  loop_cond (iterate n s l).2 = false.
Proof.
  revert s l. induction n as [|n IH]; intros s l Hq Hn.
  { simpl. apply not_true_is_false. rewrite loop_cond_true. lia. }
  rewrite iterate_S. destruct (loop_cond l) eqn:Hl; [|done].
  pose proof (loop_body_turn web urljoin s l) as Ht.
  apply IH; [by eapply turn_queue_ok|].
  apply loop_cond_true in Hl as [Hne _]. destruct Hq as [_ Hq].
  destruct Ht as [ | url rest E Hv | | ]; unlet; simpl; [done| |lia..].
  exfalso. apply (Hq url); [rewrite E; by left|done].
Qed.

(** The state that [crawl] takes from the loop is one in which the loop
    condition is false: [MAX_PAGES] turns are enough for every start. *)
Lemma crawl_loop_exits s start :
  loop_cond (iterate MAX_PAGES s (start_locals s start)).2 = false.
Proof.
  destruct (decide (default (base_url s) start ∈ visited_urls s)) as [Hv|Hv].
  - pose proof MAX_PAGES_pos. destruct MAX_PAGES as [|n]; [lia|].
    rewrite iterate_S, loop_cond_start.
    unfold start_locals. rewrite loop_body_skip by done. simpl.
    by destruct n.
  - apply iterate_exits; [|simpl; lia].
    split; simpl; [apply NoDup_singleton|].
    by intros u ->%list_elem_of_singleton.
Qed.

(** After the first turn of a [crawl] call the queue is in order whatever
    the start was. *)
Lemma iterate_start_queue_ok n s start :
  (0 < n ∨ default (base_url s) start ∉ visited_urls s) ->
  queue_ok (iterate n s (start_locals s start)).1
           (iterate n s (start_locals s start)).2.
Proof.
  intros Hn.
  destruct (decide (default (base_url s) start ∈ visited_urls s)) as [Hv|Hv].
  - destruct Hn as [Hn|Hn]; [|done]. destruct n as [|n]; [lia|].
    rewrite iterate_S, loop_cond_start.
    unfold start_locals. rewrite loop_body_skip by done. simpl.
    apply iterate_queue_ok. split; simpl; [apply NoDup_nil_2|].
    by intros ? ?%elem_of_nil.
  - apply iterate_queue_ok. split; simpl; [apply NoDup_singleton|].
    by intros u ->%list_elem_of_singleton.
Qed.

Lemma iterate_queue_NoDup n s start :
  NoDup (urls_to_visit (iterate n s (start_locals s start)).2).
Proof.
  destruct n as [|n]; [apply NoDup_singleton|].
  apply iterate_start_queue_ok. left. lia.
Qed.

End Loop.

(** ** Page records and the link map *)

Section Records.

Variable web : string -> option Soup.
Variable urljoin : string -> string -> string.

Local Abbreviation loop_body := (loop_body web urljoin).
Local Abbreviation iterate := (iterate web urljoin).
Local Abbreviation extract_page_info := (extract_page_info urljoin).
Local Abbreviation run_from := (run_from web urljoin).
Local Abbreviation reachable := (reachable web urljoin).

(** A loop turn on an unvisited URL that answers. *)
Lemma loop_body_fetched s url rest c soup :
  url ∉ visited_urls s -> web url = Some soup ->
  let page_info := extract_page_info soup url in
  let targets := l_url <$> p_links page_info in
  let v := {[url]} ∪ visited_urls s in
  let lm := foldl (record_link url) (link_map s) targets in
  loop_body s (mkLocals (url :: rest) c)
  = (mkScraper (base_url s) (output_dir s) (delay s) v
               (<[url := page_info]> (pages s)) lm
               (fs_after s page_info lm v (c + 1))
               (trace s ++ visit_events s page_info (c + 1)),
     mkLocals (foldl (enqueue v) rest targets) (c + 1)).
Proof.
  intros Hv Hw.
  pose proof (loop_body_turn web urljoin s (mkLocals (url :: rest) c)) as Ht.
  destruct (loop_body s (mkLocals (url :: rest) c)) as [s' l'].
  inversion Ht as [ E | ? ? E ? | ? ? E ? Hw' | ? ? ? E ? Hw' ];
    unlet; simpl in *; simplify_eq; done.
Qed.

(** The links kept in a page record are the raw targets that pass
    [is_valid_url], in document order. *)
Lemma kept_links soup url :
  l_url <$> p_links (extract_page_info soup url)
  = List.filter is_valid_url (raw_targets urljoin soup url).
Proof.
  unfold extract_page_info, raw_targets.
  destruct (region_content soup) as [main|]; [|done]. simpl.
  induction (tag_anchors main) as [|a anchors IH]; [done|].
  cbn [omap list_omap fmap list_fmap List.filter]. unfold extract_link at 1.
  destruct (is_valid_url (urljoin url (href a)));
    cbn [fmap list_fmap l_url]; [f_equal|]; apply IH.
Qed.

Lemma link_map_of_visit s url rest c soup :
  consistent s -> url ∉ visited_urls s -> web url = Some soup ->
  link_map (loop_body s (mkLocals (url :: rest) c)).1 !! url
  = targets_of (extract_page_info soup url).
Proof.
  intros [Hpv Hlm _ _] Hv Hw. rewrite (loop_body_fetched _ _ _ _ soup) by done. simpl.
  rewrite record_links_lookup, Hlm.
  assert (pages s !! url = None) as -> by (apply not_elem_of_dom; set_solver).
  unfold targets_of. simpl. by destruct (p_links _).
Qed.

(** C1 (as amended). For every successfully fetched page, the page record
    stored for it holds exactly the links whose resolved target passes
    [is_valid_url], in document order, and the link map entry of the page
    holds the targets of these same links and nothing else (no entry when
    there is none): a raw target that the classifier rejects is recorded in
    neither. *)
Theorem link_map_holds_kept_links s url rest c soup :
  reachable s -> url ∉ visited_urls s -> web url = Some soup ->
  let r := loop_body s (mkLocals (url :: rest) c) in
  let page_info := extract_page_info soup url in
  pages r.1 !! url = Some page_info
  ∧ l_url <$> p_links page_info
    = List.filter is_valid_url (raw_targets urljoin soup url)
  ∧ link_map r.1 !! url = targets_of page_info
  ∧ (∀ target, target ∈ default [] (link_map r.1 !! url)
               ↔ target ∈ raw_targets urljoin soup url
                 ∧ is_valid_url target = true).
Proof.
  intros Hr Hv Hw r page_info.
  assert (link_map r.1 !! url = targets_of page_info) as Hlm.
  { apply link_map_of_visit; [by eapply reachable_consistent|done..]. }
  split_and!.
  - subst r. rewrite (loop_body_fetched _ _ _ _ soup) by done. simpl. apply lookup_insert_eq.
  - apply kept_links.
  - done.
  - intros target. rewrite Hlm.
    assert (default [] (targets_of page_info) = l_url <$> p_links page_info) as ->.
    { unfold targets_of. by destruct (p_links page_info). }
    subst page_info. rewrite kept_links, list_elem_of_In, filter_In.
    by rewrite <- list_elem_of_In.
Qed.

(** C2. A dequeued URL whose fetch fails is put into the visited set
    before the request is made, the page counter is incremented, no page
    record, link map entry or file is created for it, the loop goes on
    with the rest of the queue, and whatever the run does afterwards the
    URL stays visited and is never requested again. *)
Theorem failed_fetch_is_visited_not_retried s url rest c :
  url ∉ visited_urls s -> web url = None ->
  let marked := set_visited_urls ({[url]} ∪ visited_urls s) s in
  let r := loop_body s (mkLocals (url :: rest) c) in
  url ∈ visited_urls marked
  ∧ r.1 = (get_soup web url marked).2
  ∧ r.2 = mkLocals rest (c + 1)
  ∧ pages r.1 = pages s ∧ link_map r.1 = link_map s ∧ fs r.1 = fs s
  ∧ trace r.1 = trace s ++ [EvGet url]
  ∧ (∀ n, c < MAX_PAGES ->
          iterate (S n) s (mkLocals (url :: rest) c) = iterate n r.1 r.2)
  ∧ (∀ s', run_from r.1 s' ->
           url ∈ visited_urls s'
           ∧ ∃ t, trace s' = trace r.1 ++ t ∧ url ∉ fetched t).
Proof.
  intros Hv Hw marked r.
  assert (r = (emit (EvGet url) marked, mkLocals rest (c + 1))) as Hr.
  { subst r marked. by rewrite loop_body_failed. }
  split_and!.
  - subst marked. simpl. set_solver.
  - by rewrite Hr.
  - by rewrite Hr.
  - by rewrite Hr.
  - by rewrite Hr.
  - by rewrite Hr.
  - by rewrite Hr.
  - intros n Hc. rewrite iterate_S.
    assert (loop_cond (mkLocals (url :: rest) c) = true) as ->; [|done].
    apply loop_cond_true. by split.
  - intros s' Hrun. apply run_from_trace in Hrun as (Hsub & t & Ht & Hf).
    rewrite Hr in Hsub, Hf. subst marked. simpl in Hsub, Hf.
    split; [set_solver|]. exists t. split; [done|].
    intros Hin. apply (Hf url Hin). set_solver.
Qed.

(** C9. Between any two loop turns the link map has an entry for a URL
    exactly when the page record stored for that URL has a non-empty links
    sequence; and a fetched page without main content region gets a record
    with content [""] and no links, no link map entry, and adds nothing to
    the queue. *)
Theorem link_map_keys_are_pages_with_links s :
  reachable s ->
  (∀ url, is_Some (link_map s !! url)
          ↔ ∃ page_info, pages s !! url = Some page_info
                         ∧ p_links page_info ≠ [])
  ∧ (∀ url rest c soup,
       url ∉ visited_urls s -> web url = Some soup ->
       region_content soup = None ->
       let r := loop_body s (mkLocals (url :: rest) c) in
       (∃ title, pages r.1 !! url = Some (mkPage url title "" []))
       ∧ link_map r.1 !! url = None
       ∧ urls_to_visit r.2 = rest).
Proof.
  intros Hr. pose proof (reachable_consistent _ _ _ Hr) as Hc. split.
  - intros url. rewrite (link_map_pages _ Hc). split.
    + intros [targets Ht]. destruct (pages s !! url) as [p|]; [|done].
      exists p. split; [done|]. intros E. simpl in Ht. unfold targets_of in Ht.
      by rewrite E in Ht.
    + intros (p & -> & Hne). simpl. unfold targets_of.
      destruct (p_links p); [done|by eexists].
  - intros url rest c soup Hv Hw Hnone r.
    assert (extract_page_info soup url
            = mkPage url (match soup_title soup with
                          | Some t => Str.strip t
                          | None => "No Title"
                          end) "" []) as Hpage.
    { unfold extract_page_info. by rewrite Hnone. }
    split_and!.
    + eexists. subst r. rewrite (loop_body_fetched _ _ _ _ soup) by done. simpl.
      rewrite lookup_insert_eq. by rewrite Hpage.
    + subst r. rewrite (link_map_of_visit _ _ _ _ soup) by done. by rewrite Hpage.
    + subst r. rewrite (loop_body_fetched _ _ _ _ soup) by done. simpl. by rewrite Hpage.
Qed.

End Records.

(** ** The page cap, the queue and the checkpoints *)

Section Engine.

Variable web : string -> option Soup.
Variable urljoin : string -> string -> string.

Local Abbreviation loop_body := (loop_body web urljoin).
Local Abbreviation iterate := (iterate web urljoin).
Local Abbreviation crawl := (crawl web urljoin).
Local Abbreviation run_from := (run_from web urljoin).

Lemma turn_config s l s' l' :
  turn web urljoin s l s' l' ->
  base_url s' = base_url s ∧ output_dir s' = output_dir s ∧ delay s' = delay s.
Proof. by intros [ | | | ]. Qed.

Lemma run_from_config s0 s :
  run_from s0 s ->
  base_url s = base_url s0 ∧ output_dir s = output_dir s0 ∧ delay s = delay s0.
Proof.
  induction 1 as [ | s l _ (?&?&?) | s _ (?&?&?) | s _ (?&?&?) ]; [done| | |].
  - destruct (turn_config _ _ _ _ (loop_body_turn web urljoin s l)) as (->& -> & ->).
    done.
  - by destruct s.
  - by destruct s.
Qed.

Lemma checkpoint_paths_differ s : link_map_path s ≠ visited_urls_path s.
Proof.
  unfold link_map_path, visited_urls_path, os_path_join. simpl.
  destruct (_ || _); intros E; repeat apply String.app_inj in E; done.
Qed.

Lemma save_progress_fs s :
  fs (save_progress s)
  = <[visited_urls_path s := VisitedFile (elements (visited_urls s))]>
      (<[link_map_path s := LinkMapFile (link_map s)]> (fs s)).
Proof. by destruct s. Qed.

Lemma checkpoint_lookup (files : gmap string File) s lm v :
  let files' := <[visited_urls_path s := VisitedFile v]>
                  (<[link_map_path s := LinkMapFile lm]> files) in
  files' !! link_map_path s = Some (LinkMapFile lm)
  ∧ files' !! visited_urls_path s = Some (VisitedFile v).
Proof.
  pose proof (checkpoint_paths_differ s). simpl.
  rewrite lookup_insert_ne, !lookup_insert_eq by done. done.
Qed.

(** C3 (as amended). Every [crawl] call adds at most [MAX_PAGES] URLs to
    the visited set: at any point of the call the set has grown by exactly
    the page counter, which never exceeds [MAX_PAGES]. So the set stays
    within the cap in a call that starts from an empty visited set, while
    calls that share their visited set can together exceed it. A URL that
    is dequeued while already visited is dropped without being counted. *)
Theorem crawl_adds_at_most_cap s start :
  (∀ n, let r := iterate n s (start_locals s start) in
        size (visited_urls r.1) = size (visited_urls s) + page_counter r.2
        ∧ page_counter r.2 ≤ MAX_PAGES)
  ∧ size (visited_urls (crawl start s)) ≤ size (visited_urls s) + MAX_PAGES
  ∧ (visited_urls s = ∅ -> size (visited_urls (crawl start s)) ≤ MAX_PAGES)
  ∧ (∀ url rest c,
       url ∈ visited_urls s ->
       loop_body s (mkLocals (url :: rest) c) = (s, mkLocals rest c)).
Proof.
  assert (∀ n, size (visited_urls (iterate n s (start_locals s start)).1)
               = size (visited_urls s)
                 + page_counter (iterate n s (start_locals s start)).2
               ∧ page_counter (iterate n s (start_locals s start)).2 ≤ MAX_PAGES)
    as Hn.
  { intros n.
    destruct (iterate_count web urljoin n s (start_locals s start)) as [H1 H2];
      simpl in *; lia. }
  assert (size (visited_urls (crawl start s)) ≤ size (visited_urls s) + MAX_PAGES)
    as Hc.
  { unfold crawl.
    destruct (save_progress_fields
                (iterate MAX_PAGES s (start_locals s start)).1) as (-> & _).
    destruct (Hn MAX_PAGES). lia. }
  split_and!; [done|done| |].
  - intros E. rewrite E, size_empty in Hc. lia.
  - intros url rest c Hv. by apply loop_body_skip.
Qed.

(** C4 (as amended). The queue is first in, first out and never holds a
    URL twice. A link target is appended only when it is neither visited
    nor queued, so after the first turn of a [crawl] call no queued URL is
    in the visited set. The start URL of a call is queued without that
    test: when an earlier call on the same scraper has visited it, it sits
    in the queue until the first turn drops it. *)
Theorem queue_is_fifo_without_duplicates s start n :
  let r := iterate n s (start_locals s start) in
  NoDup (urls_to_visit r.2)
  ∧ ((0 < n ∨ default (base_url s) start ∉ visited_urls s) ->
     ∀ url, url ∈ urls_to_visit r.2 -> url ∉ visited_urls r.1)
  ∧ (∀ url rest,
       urls_to_visit r.2 = url :: rest ->
       ∃ added,
         urls_to_visit (loop_body r.1 r.2).2 = rest ++ added
         ∧ ∀ a, a ∈ added ->
                (a ∉ visited_urls (loop_body r.1 r.2).1) ∧ a ∉ rest).
Proof.
  intros r. split_and!.
  - apply iterate_queue_NoDup.
  - intros Hn. by apply iterate_start_queue_ok.
  - intros url rest E. eapply turn_fifo; [apply loop_body_turn|done].
Qed.

(** C6 (as amended). A visit whose fetch succeeds and which brings the
    page counter to a multiple of ten ends with a checkpoint: the link map
    file and the visited file then hold the link map and the visited set
    as they are after the visit, in place of what the files held before.
    [crawl] writes one more such checkpoint when the loop is over. In a
    call that starts from an empty visited set the visited set has as many
    URLs as the counter says, so the checkpoint written when the counter
    reaches ten holds exactly the ten visited URLs. *)
Theorem checkpoint_on_tenth_fetched_visit s start :
  (∀ url rest c soup,
     url ∉ visited_urls s -> web url = Some soup -> (c + 1) mod 10 = 0 ->
     let r := loop_body s (mkLocals (url :: rest) c) in
     fs r.1 !! link_map_path s = Some (LinkMapFile (link_map r.1))
     ∧ fs r.1 !! visited_urls_path s
       = Some (VisitedFile (elements (visited_urls r.1)))
     ∧ ∃ t, trace r.1 = t ++ [EvWrite (link_map_path s);
                              EvWrite (visited_urls_path s);
                              EvSleep (delay s)])
  ∧ (let s' := crawl start s in
     fs s' !! link_map_path s = Some (LinkMapFile (link_map s'))
     ∧ fs s' !! visited_urls_path s
       = Some (VisitedFile (elements (visited_urls s')))
     ∧ ∃ t, trace s' = t ++ [EvWrite (link_map_path s);
                             EvWrite (visited_urls_path s)])
  ∧ (visited_urls s = ∅ ->
     ∀ n url rest soup,
       let r := iterate n s (start_locals s start) in
       urls_to_visit r.2 = url :: rest -> page_counter r.2 = 9 ->
       web url = Some soup ->
       ∃ urls,
         fs (loop_body r.1 r.2).1 !! visited_urls_path s
         = Some (VisitedFile urls)
         ∧ length urls = 10
         ∧ ∀ u, u ∈ urls ↔ u ∈ visited_urls (loop_body r.1 r.2).1).
Proof.
  split_and!.
  - intros url rest c soup Hv Hw Hten r. subst r.
    rewrite (loop_body_fetched _ _ _ _ _ _ soup) by done.
    cbn [fst fs link_map visited_urls trace]. unfold fs_after, visit_events.
    rewrite Hten. cbn [Nat.eqb].
    split_and!; [apply checkpoint_lookup..|].
    eexists (trace s ++ [_; _]). by rewrite <- app_assoc.
  - intros s'. subst s'. unfold crawl.
    set (s1 := (iterate MAX_PAGES s (start_locals s start)).1).
    assert (output_dir s1 = output_dir s) as Ho.
    { by apply (run_from_config s s1 (iterate_run_from _ _ _ _ _)). }
    assert (link_map_path s1 = link_map_path s) as El.
    { unfold link_map_path. by rewrite Ho. }
    assert (visited_urls_path s1 = visited_urls_path s) as Ev.
    { unfold visited_urls_path. by rewrite Ho. }
    destruct (save_progress_fields s1) as (-> & _ & -> & ->).
    rewrite save_progress_fs, El, Ev.
    split_and!; [apply checkpoint_lookup..|by eexists].
  - intros Hempty n url rest soup r Hq Hnine Hw.
    destruct (iterate_start_queue_ok web urljoin n s start) as [_ Hok].
    { right. rewrite Hempty. set_solver. }
    fold r in Hok.
    assert (url ∉ visited_urls r.1) as Hv.
    { apply Hok. rewrite Hq. by left. }
    assert (output_dir r.1 = output_dir s) as Ho.
    { by apply (run_from_config s r.1 (iterate_run_from _ _ _ _ _)). }
    assert (visited_urls_path r.1 = visited_urls_path s) as Ev.
    { unfold visited_urls_path. by rewrite Ho. }
    destruct (iterate_count web urljoin n s (start_locals s start)) as [Hsz _].
    { simpl. lia. }
    fold r in Hsz. rewrite Hempty, size_empty, Hnine in Hsz. simpl in Hsz.
    destruct r as [s1 [q c]]. simpl in *. subst q c.
    rewrite (loop_body_fetched _ _ _ _ _ _ soup) by done.
    cbn [fst fs visited_urls]. unfold fs_after. cbn [Nat.add Nat.modulo].
    change ((9 + 1) mod 10 =? 0) with true. cbn iota.
    eexists. rewrite <- Ev. split_and!.
    + apply checkpoint_lookup.
    + change (length (elements ?X)) with (size X).
      rewrite size_union by set_solver. rewrite size_singleton. lia.
    + intros u. apply elem_of_elements.
Qed.

End Engine.

(** ** The URL classifier and the page file name *)

Lemma endswith_refl s : Str.endswith s s = true.
Proof. destruct s; simpl; [done|]. by rewrite Ascii.eqb_refl, String.eqb_refl. Qed.


(** C10. The page file that [save_page] writes is named after the path and
    the query of the page's URL and nothing else of it: two records whose
    URLs have the same path and the same query are written to the same file,
    whatever their scheme and host, and the file then holds the record that
    was saved last. *)
Theorem page_file_named_by_path_and_query s p1 p2 :
  path (urlparse (p_url p1)) = path (urlparse (p_url p2)) ->
  query (urlparse (p_url p1)) = query (urlparse (p_url p2)) ->
  page_filename (p_url p1) = page_filename (p_url p2)
  ∧ (save_page p2 (save_page p1 s).2).1 = (save_page p1 s).1
  ∧ fs (save_page p2 (save_page p1 s).2).2 !! (save_page p1 s).1
    = Some (PageFile p2).
Proof.
  intros Hpath Hquery.
  assert (page_filename (p_url p1) = page_filename (p_url p2)) as Hname.
  { unfold page_filename. by rewrite Hpath, Hquery. }
  destruct s as [b o d v p lm f t].
  cbv beta iota zeta delta
    [save_page write_file emit page_filepath base_url output_dir delay
     visited_urls pages link_map fs trace fst snd].
  rewrite Hname. split_and!; [done..|apply lookup_insert_eq].
Qed.

(** ** The link graph *)

Section Graph.

Variable known : gmap string PageInfo.

Local Abbreviation page_nodes := (page_nodes known).
Local Abbreviation edges_ok := (edges_ok known).

Lemma add_nodes_edges items g :
  g_edges (foldl (fun g kv => add_node kv.1 (p_title kv.2) g) g items)
  = g_edges g.
Proof. revert g. induction items as [|kv items IH]; intros g; simpl; [done|]. by rewrite IH. Qed.

Lemma add_nodes_nodes (items : list (string * PageInfo)) g :
  g_nodes (foldl (fun g kv => add_node kv.1 (p_title kv.2) g) g items)
  = foldl (fun m kv => <[kv.1 := Some (p_title kv.2)]> m) (g_nodes g) items.
Proof. revert g. induction items as [|kv items IH]; intros g; simpl; [done|]. by rewrite IH. Qed.

Lemma insert_all_lookup (items : list (string * PageInfo))
    (m : gmap string (option string)) k :
  NoDup items.*1 ->
  foldl (fun m kv => <[kv.1 := Some (p_title kv.2)]> m) m items !! k
  = match (list_to_map items : gmap string PageInfo) !! k with
    | Some page => Some (Some (p_title page))
    | None => m !! k
    end.
Proof.
  revert m. induction items as [|[k0 p0] items IH]; intros m Hnd; simpl; [done|].
  apply NoDup_cons in Hnd as [Hk0 Hnd]. rewrite IH by done.
  destruct (decide (k = k0)) as [->|Hne].
  - rewrite lookup_insert_eq.
    assert ((list_to_map items : gmap string PageInfo) !! k0 = None) as ->.
    { by apply not_elem_of_list_to_map_1. }
    by rewrite lookup_insert_eq.
  - rewrite (lookup_insert_ne (list_to_map items)) by done.
    destruct (list_to_map items !! k); [done|]. by rewrite lookup_insert_ne.
Qed.

Lemma add_nodes_all :
  g_nodes (foldl (fun g kv => add_node kv.1 (p_title kv.2) g) empty_graph
                 (map_to_list known))
  = page_nodes.
Proof.
  rewrite add_nodes_nodes. apply map_eq. intros k.
  rewrite insert_all_lookup by apply NoDup_fst_map_to_list.
  rewrite list_to_map_to_list. unfold page_nodes. rewrite lookup_fmap.
  by destruct (known !! k).
Qed.

Lemma touch_known k : is_Some (known !! k) -> touch_node k page_nodes = page_nodes.
Proof.
  intros [page Hk]. unfold touch_node, page_nodes. by rewrite lookup_fmap, Hk.
Qed.

Lemma add_page_edges_ok g u page :
  known !! u = Some page ->
  g_nodes g = page_nodes -> edges_ok g ->
  g_nodes (add_page_edges known g (u, page)) = page_nodes
  ∧ edges_ok (add_page_edges known g (u, page)).
Proof.
  intros Hu. unfold add_page_edges. simpl.
  assert (∀ links g,
            (∀ link, link ∈ links -> link ∈ p_links page) ->
            g_nodes g = page_nodes -> edges_ok g ->
            let g' := foldl (fun g link =>
                               match known !! l_url link with
                               | Some _ => add_edge u (l_url link) (l_text link) g
                               | None => g
                               end) g links in
            g_nodes g' = page_nodes ∧ edges_ok g') as Hloop.
  { clear g. induction links as [|link links IH]; intros g Hin Hn He; simpl; [done|].
    apply IH; [intros ? ?; apply Hin; by right| |].
    - destruct (known !! l_url link) as [target|] eqn:Hv; [|done].
      simpl. rewrite Hn. rewrite !touch_known; [done|by eexists..].
    - destruct (known !! l_url link) as [target|] eqn:Hv; [|done].
      intros a b t. simpl. destruct (decide ((u, l_url link) = (a, b))) as [E|Hne].
      + simplify_eq. rewrite lookup_insert_eq. intros [= <-].
        split; [by eexists|]. exists page, link. split_and!; [done| |done..].
        apply Hin. by left.
      + rewrite lookup_insert_ne by done. apply He. }
  intros Hn He. by apply Hloop.
Qed.

Lemma add_all_edges_ok items g :
  (∀ u page, (u, page) ∈ items -> known !! u = Some page) ->
  g_nodes g = page_nodes -> edges_ok g ->
  g_nodes (foldl (add_page_edges known) g items) = page_nodes
  ∧ edges_ok (foldl (add_page_edges known) g items).
Proof.
  revert g. induction items as [|[u page] items IH]; intros g Hin Hn He; simpl; [done|].
  destruct (add_page_edges_ok g u page) as [Hn' He']; [apply Hin; by left|done..|].
  apply IH; [intros ? ? ?; apply Hin; by right|done..].
Qed.

Lemma export_page_nodes :
  ∃ nodes, mapM export_node (map_to_list page_nodes) = Some nodes
           ∧ ∀ url title, (url, title) ∈ nodes
                          ↔ ∃ page, known !! url = Some page ∧ p_title page = title.
Proof.
  destruct (mapM export_node (map_to_list page_nodes)) as [nodes|] eqn:E.
  - exists nodes. split; [done|]. apply mapM_Some in E.
    intros url title. split.
    + intros Hin. apply list_elem_of_lookup in Hin as [i Hi].
      destruct (Forall2_lookup_r _ _ _ _ _ E Hi) as ([k o] & Hk & Hex).
      apply list_elem_of_lookup_2, elem_of_map_to_list in Hk.
      unfold page_nodes in Hk. rewrite lookup_fmap in Hk.
      destruct (known !! k) as [page|] eqn:Hp; [|done]. simpl in Hk.
      simplify_eq. unfold export_node in Hex. simpl in Hex. simplify_eq.
      by exists page.
    + intros (page & Hp & <-).
      assert ((url, Some (p_title page)) ∈ map_to_list page_nodes) as Hin.
      { apply elem_of_map_to_list. unfold page_nodes. by rewrite lookup_fmap, Hp. }
      apply list_elem_of_lookup in Hin as [i Hi].
      destruct (Forall2_lookup_l _ _ _ _ _ E Hi) as (y & Hy & Hex).
      unfold export_node in Hex. simpl in Hex. simplify_eq.
      by eapply list_elem_of_lookup_2.
  - exfalso. assert (is_Some (mapM export_node (map_to_list page_nodes))) as [? ?];
      [|congruence].
    apply mapM_is_Some, Forall_forall. intros [k o] Hin.
    apply elem_of_map_to_list in Hin. unfold page_nodes in Hin.
    rewrite lookup_fmap in Hin. destruct (known !! k); [|done].
    simpl in Hin. simplify_eq. by eexists.
Qed.

End Graph.

(** C8. The link-graph export of a processor that starts with an empty
    graph is written, and in it every edge has its source and its target
    among the loaded pages (and carries the text of a link from the one to
    the other), and the nodes are exactly the loaded pages, each with the
    title of its record. *)
Theorem link_graph_joins_known_pages input output known files :
  ∃ p nodes edges,
    build_link_graph (mkProcessor input output known empty_graph files) = Some p
    ∧ proc_pages p = known
    ∧ link_graph_file p = Some (GraphFile nodes edges)
    ∧ (∀ source target text,
         (source, target, text) ∈ edges ->
         is_Some (known !! source) ∧ is_Some (known !! target)
         ∧ ∃ page link, known !! source = Some page ∧ link ∈ p_links page
                        ∧ l_url link = target ∧ l_text link = text)
    ∧ (∀ url page, known !! url = Some page -> (url, p_title page) ∈ nodes)
    ∧ (∀ url title, (url, title) ∈ nodes -> is_Some (known !! url)).
Proof.
  unfold build_link_graph. cbn [proc_pages graph input_dir proc_output_dir proc_fs].
  set (g1 := foldl (fun g kv => add_node kv.1 (p_title kv.2) g) empty_graph
                   (map_to_list known)).
  destruct (add_all_edges_ok known (map_to_list known) g1) as [Hn He].
  { intros u page. apply elem_of_map_to_list. }
  { apply add_nodes_all. }
  { intros u v t. unfold g1. rewrite add_nodes_edges. simpl. by rewrite lookup_empty. }
  rewrite Hn. destruct (export_page_nodes known) as (nodes & -> & Hnodes).
  eexists _, nodes, _. split_and!; [done|done| | | |].
  - unfold link_graph_file. simpl. apply lookup_insert_eq.
  - intros source target text Hin. unfold export_edge in Hin.
    rewrite list_fmap_id in Hin. apply elem_of_map_to_list in Hin.
    destruct (He _ _ _ Hin) as (Ht & page & link & Hs & ?). split_and!; [by eexists|done|].
    by exists page, link.
  - intros url page Hp. apply Hnodes. by exists page.
  - intros url title Hin. apply Hnodes in Hin as (page & Hp & _). by eexists.
Qed.

(** ** Page files read back by the processor *)

Lemma append_cons c a b : String c a +:+ b = String c (a +:+ b).
Proof. reflexivity. Qed.

Lemma append_assoc a b c : (a +:+ b) +:+ c = a +:+ b +:+ c.
Proof. induction a as [|d a IH]; [done|]. by rewrite !append_cons, IH. Qed.

Lemma mem_app c a b : Str.mem c (a +:+ b) = Str.mem c a || Str.mem c b.
Proof.
  induction a as [|d a IH]; [done|]. rewrite append_cons. cbn [Str.mem].
  by destruct (Ascii.eqb c d).
Qed.

Lemma safe_char_not_slash c : Ascii.eqb "/" (safe_char c) = false.
Proof. by destruct c as [[] [] [] [] [] [] [] []]. Qed.

Lemma mem_slash_safe s : Str.mem "/" (Str.map safe_char s) = false.
Proof.
  induction s as [|c s IH]; [done|]. cbn [Str.mem Str.map].
  by rewrite safe_char_not_slash.
Qed.

(** A page file name has no [/] in it. *)
Lemma page_filename_no_slash url : Str.mem "/" (page_filename url +:+ ".json") = false.
Proof.
  unfold page_filename. destruct (negb _); rewrite ?mem_app, !mem_slash_safe; done.
Qed.

Lemma endswith_app a b : Str.endswith (a +:+ b) b = true.
Proof.
  induction a as [|c a IH]; [apply endswith_refl|].
  change (String c a +:+ b) with (String c (a +:+ b)).
  change (Str.endswith (String c (a +:+ b)) b)
    with (if String.eqb (String c (a +:+ b)) b then true
          else Str.endswith (a +:+ b) b).
  rewrite IH. by destruct (String.eqb (String c (a +:+ b)) b).
Qed.

Lemma split1_None c s : Str.mem c s = false -> Str.split1 c s = None.
Proof.
  induction s as [|d s IH]; simpl; [done|].
  destruct (Ascii.eqb c d); [done|]. intros H. by rewrite IH.
Qed.

Lemma removeprefix_app pre s : removeprefix pre (pre +:+ s) = Some s.
Proof.
  induction pre as [|c pre IH]; [by destruct s|]. rewrite append_cons.
  cbn [removeprefix]. by rewrite Ascii.eqb_refl.
Qed.

Lemma os_path_join_dir_prefix dir name :
  Str.mem "/" name = false -> os_path_join dir name = dir_prefix dir +:+ name.
Proof.
  intros Hname. unfold os_path_join, dir_prefix.
  assert (Str.startswith name "/" = false) as ->.
  { destruct name as [|c name]; [done|].
    unfold Str.startswith. cbn [String.prefix].
    destruct (ascii_dec "/" c) as [<-|]; [|done].
    cbn [Str.mem] in Hname. by rewrite Ascii.eqb_refl in Hname. }
  destruct (_ || _); [done|]. by rewrite append_assoc.
Qed.

(** A file written straight into [dir] is listed under its name. *)
Lemma entry_name_join dir name :
  Str.mem "/" name = false -> entry_name dir (os_path_join dir name) = Some name.
Proof.
  intros Hname. unfold entry_name.
  rewrite os_path_join_dir_prefix, removeprefix_app by done.
  unfold split_or. by rewrite split1_None.
Qed.

(** A page record that is saved into an empty directory under a name that
    the processor does not reserve is loaded back as it was saved. *)
Lemma saved_page_is_loaded base output d processed page_info :
  page_filename (p_url page_info) +:+ ".json" ∉ RESERVED_NAMES ->
  let s := (save_page page_info (init base output d ∅)).2 in
  proc_pages (load_data (new_processor output processed (fs s)))
  = {[p_url page_info := page_info]}.
Proof.
  intros Hres. simpl. unfold page_filepath. simpl.
  set (name := page_filename (p_url page_info) +:+ ".json") in *.
  unfold load_data. cbn [input_dir proc_fs proc_pages new_processor].
  unfold listdir. rewrite insert_empty, map_to_list_singleton. simpl.
  rewrite entry_name_join by apply page_filename_no_slash. simpl.
  unfold load_file, is_page_file.
  rewrite bool_decide_false by done.
  assert (Str.endswith name ".json" = true) as -> by apply endswith_app.
  simpl. rewrite lookup_singleton_eq. by rewrite insert_empty.
Qed.

(** C7 at the record of the site's root. The URL has an empty path, so
    [save_page] names the file [index.json]; [load_data] skips that name,
    and [create_index] overwrites the file with the index. *)
Theorem root_page_is_not_loaded :
  let s := (save_page Site.root_record new_scraper).2 in
  let p := load_data (new_processor OUTPUT_DIR "umich_arc_processed" (fs s)) in
  is_valid_url Site.root_url = true
  ∧ (save_page Site.root_record new_scraper).1 = "umich_arc_docs/index.json"
  ∧ fs s !! "umich_arc_docs/index.json" = Some (PageFile Site.root_record)
  ∧ proc_pages p !! Site.root_url = None
  ∧ fs (create_index s) !! "umich_arc_docs/index.json" = Some (IndexFile 0 []).
Proof. vm_compute. done. Qed.

(** ** A run that outgrows the cap *)

Lemma prefix_app p a b : String.prefix p a = true -> String.prefix p (a +:+ b) = true.
Proof.
  revert a. induction p as [|c p IH]; intros a; [by destruct a, b|].
  destruct a as [|d a]; [done|]. rewrite append_cons. cbn [String.prefix].
  destruct (ascii_dec c d); [apply IH|done].
Qed.

Lemma contains_cons sub c s :
  Str.contains sub (String c s)
  = if String.prefix sub (String c s) then true else Str.contains sub s.
Proof. reflexivity. Qed.

Lemma contains_app sub a b :
  Str.contains sub a = true -> Str.contains sub (a +:+ b) = true.
Proof.
  induction a as [|c a IH].
  - destruct sub; [by destruct b|done].
  - rewrite append_cons, !contains_cons.
    destruct (String.prefix sub (String c a)) eqn:E.
    + intros _. rewrite <- append_cons. by rewrite prefix_app.
    + intros H. rewrite IH by done.
      by destruct (String.prefix sub (String c (a +:+ b))).
Qed.

Lemma of_nat_inj n m : Str.of_nat n = Str.of_nat m -> n = m.
Proof.
  unfold Str.of_nat. intros E. apply DecimalNat.Unsigned.to_uint_inj.
  assert (∀ k, Nat.to_uint k ≠ Decimal.Nil) as Hnil.
  { intros k Hk. pose proof (f_equal Nat.of_uint Hk) as Hk'.
    rewrite DecimalNat.Unsigned.of_to in Hk'. subst k. vm_compute in Hk. done. }
  apply (f_equal NilZero.uint_of_string) in E.
  rewrite !NilZero.usu in E by apply Hnil. by injection E.
Qed.

Lemma child_inj n m : Site.child n = Site.child m -> n = m.
Proof.
  unfold Site.child. intros E. do 2 apply String.app_inj in E. by apply of_nat_inj.
Qed.

Lemma child_not_base n : Site.child n ≠ BASE_URL.
Proof.
  unfold Site.child. intros E.
  assert (BASE_URL +:+ "/" +:+ Str.of_nat n = BASE_URL +:+ "") as E'.
  { rewrite E. clear E. by induction BASE_URL as [|c s IH]; [|rewrite append_cons, <- IH]. }
  by apply String.app_inj in E'.
Qed.

Lemma children_NoDup n : NoDup (Site.children n).
Proof.
  unfold Site.children. apply NoDup_fmap_2_strong; [|apply NoDup_seq].
  intros a b _ _. apply child_inj.
Qed.

Lemma children_S n : Site.children (S n) = Site.children n ++ [Site.child (S n)].
Proof. unfold Site.children. by rewrite seq_S, fmap_app. Qed.

Lemma children_length n : length (Site.children n) = n.
Proof. unfold Site.children. by rewrite length_fmap, length_seq. Qed.

Lemma child_in_site n : Str.contains DOC_HOST (Site.child n) = true.
Proof. unfold Site.child. by apply contains_app. Qed.

Lemma hub_unanswered n : Site.hub (Site.child n) = None.
Proof.
  unfold Site.hub, Site.serve. cbn [list_to_map foldr].
  rewrite lookup_insert_ne; [apply lookup_empty|].
  intros E. by apply (child_not_base n).
Qed.

Section Unanswered.

Variable web : string -> option Soup.
Variable urljoin : string -> string -> string.

Local Abbreviation iterate := (iterate web urljoin).

(** On a queue of unvisited URLs none of which answers, every turn visits
    the head of the queue until the queue or the cap is exhausted. *)
Lemma iterate_unanswered n s q c :
  (∀ u, u ∈ q -> web u = None) -> queue_ok s (mkLocals q c) ->
  visited_urls (iterate n s (mkLocals q c)).1
  = list_to_set (take (n `min` (MAX_PAGES - c)) q) ∪ visited_urls s.
Proof.
  revert s q c. induction n as [|n IH]; intros s q c Hw Hq.
  { simpl. set_solver. }
  rewrite iterate_S. destruct (loop_cond (mkLocals q c)) eqn:Hl.
  - apply loop_cond_true in Hl as [Hne Hc]. simpl in Hne, Hc.
    destruct q as [|u q]; [done|].
    assert (u ∉ visited_urls s) as Hv.
    { apply Hq. by left. }
    assert (queue_ok (loop_body web urljoin s (mkLocals (u :: q) c)).1
                     (loop_body web urljoin s (mkLocals (u :: q) c)).2) as Hq'.
    { eapply turn_queue_ok; [done|apply loop_body_turn]. }
    rewrite loop_body_failed in * by (done || (apply Hw; by left)).
    simpl in Hq' |- *. rewrite IH; [|intros ? ?; apply Hw; by right|done].
    simpl. replace (MAX_PAGES - c) with (S (MAX_PAGES - (c + 1))) by lia.
    simpl. set_solver.
  - simpl. apply not_true_iff_false in Hl. rewrite loop_cond_true in Hl.
    simpl in Hl. destruct q as [|u q]; [rewrite take_nil; set_solver|].
    replace (MAX_PAGES - c) with 0; [|destruct (decide (c < MAX_PAGES)); [|lia]; naive_solver].
    rewrite ?Nat.min_0_r. simpl. set_solver.
Qed.

(** A [crawl] that starts at an unvisited URL which does not answer
    visits that URL and nothing else. *)
Lemma crawl_unanswered seed s :
  seed ∉ visited_urls s -> web seed = None ->
  visited_urls (crawl web urljoin (Some seed) s) = {[seed]} ∪ visited_urls s.
Proof.
  intros Hv Hw. unfold crawl.
  destruct (save_progress_fields
              (iterate MAX_PAGES s (start_locals s (Some seed))).1) as (-> & _).
  unfold start_locals. cbn [default from_option id].
  rewrite iterate_unanswered.
  - pose proof MAX_PAGES_pos.
    replace (MAX_PAGES `min` (MAX_PAGES - 0)) with (S (MAX_PAGES - 1)) by lia.
    cbn [take list_to_set]. rewrite take_nil. set_solver.
  - by intros u ->%list_elem_of_singleton.
  - split; cbn [urls_to_visit]; [apply NoDup_singleton|].
    by intros u ->%list_elem_of_singleton.
Qed.

(** A [crawl] that starts at an unvisited listing page whose links are
    fresh, distinct, in-site and do not answer visits the listing and the
    links, up to the cap. *)
Lemma crawl_listing seed soup targets s :
  seed ∉ visited_urls s -> web seed = Some soup ->
  l_url <$> p_links (extract_page_info urljoin soup seed) = targets ->
  NoDup targets ->
  (∀ a, a ∈ targets ->
        a ≠ seed ∧ (a ∉ visited_urls s)
        ∧ Str.contains DOC_HOST a = true ∧ web a = None) ->
  visited_urls (crawl web urljoin (Some seed) s)
  = list_to_set (take (MAX_PAGES - 1) targets) ∪ ({[seed]} ∪ visited_urls s).
Proof.
  intros Hv Hw Hlinks Hnd Hall. unfold crawl.
  destruct (save_progress_fields
              (iterate MAX_PAGES s (start_locals s (Some seed))).1) as (-> & _).
  pose proof MAX_PAGES_pos as Hpos.
  replace MAX_PAGES with (S (MAX_PAGES - 1)) at 1 by lia.
  rewrite iterate_S, loop_cond_start.
  unfold start_locals. cbn [default from_option id].
  pose proof (loop_body_fetched web urljoin s seed [] 0 soup Hv Hw) as Hturn.
  cbv zeta in Hturn. rewrite Hturn. clear Hturn. cbn [fst snd]. rewrite Hlinks.
  assert (∀ a, a ∈ targets -> a ∉ ({[seed]} ∪ visited_urls s)) as Hfresh.
  { intros a Ha. destruct (Hall a Ha) as (? & ? & _).
    intros [?%elem_of_singleton|?]%elem_of_union; done. }
  rewrite (enqueue_all_fresh ({[seed]} ∪ visited_urls s) targets []).
  - rewrite iterate_unanswered.
    + cbn [visited_urls app].
      by replace ((MAX_PAGES - 1) `min` (MAX_PAGES - (0 + 1)))
        with (MAX_PAGES - 1) by lia.
    + intros u Hu. by destruct (Hall u Hu) as (_ & _ & _ & ?).
    + split; cbn [urls_to_visit visited_urls app]; done.
  - done.
  - intros a Ha. split; [by apply Hfresh|]. by destruct (Hall a Ha) as (_ & _ & ? & _).
Qed.

End Unanswered.

Lemma hub_listing : Site.hub BASE_URL = Some (Site.page (Site.children 1000)).
Proof. unfold Site.hub, Site.serve. cbn [list_to_map foldr]. apply lookup_insert_eq. Qed.

Lemma hub_listing_links :
  l_url <$> p_links (extract_page_info Site.urljoin
                       (Site.page (Site.children 1000)) BASE_URL)
  = Site.children 1000.
Proof. vm_compute. reflexivity. Qed.

(** The first [crawl] on the hub visits the listing and, of its thousand
    links, as many as the cap leaves room for. *)
Lemma hub_first_crawl :
  visited_urls (crawl Site.hub Site.urljoin (Some BASE_URL) new_scraper)
  = list_to_set (Site.children 999) ∪ {[BASE_URL]}.
Proof.
  rewrite (crawl_listing Site.hub Site.urljoin BASE_URL
             (Site.page (Site.children 1000)) (Site.children 1000) new_scraper
             (not_elem_of_empty _) hub_listing hub_listing_links
             (children_NoDup 1000)).
  - change (MAX_PAGES - 1) with 999. change (visited_urls new_scraper) with (∅ : gset string).
    rewrite (children_S 999).
    rewrite (take_app_length' (Site.children 999) [Site.child (S 999)] 999)
      by (by rewrite children_length).
    by rewrite (right_id_L ∅ (∪)).
  - intros a (i & -> & _)%list_elem_of_fmap. split_and!.
    + apply child_not_base.
    + apply not_elem_of_empty.
    + apply child_in_site.
    + apply hub_unanswered.
Qed.

(** C3, counterexample. On a listing page with a thousand links that do
    not answer, [crawl] from the listing visits the listing and 999 of the
    links; a second [crawl] on the same scraper, started at the last link,
    visits that one too: 1001 visited URLs with a cap of 1000. *)
Lemma visited_set_exceeds_cap :
  let s1 := crawl Site.hub Site.urljoin (Some BASE_URL) new_scraper in
  let s2 := crawl Site.hub Site.urljoin (Some (Site.child 1000)) s1 in
  size (visited_urls s1) = MAX_PAGES ∧ size (visited_urls s2) = MAX_PAGES + 1.
Proof.
  intros s1 s2.
  assert (visited_urls s1 = list_to_set (Site.children 999) ∪ {[BASE_URL]}) as E1
    by apply hub_first_crawl.
  assert (Site.child 1000 ∉ visited_urls s1) as Hnew.
  { rewrite E1. intros [Hin| ?%elem_of_singleton]%elem_of_union.
    - apply elem_of_list_to_set in Hin.
      pose proof (children_NoDup 1000) as Hnd. rewrite (children_S 999) in Hnd.
      apply NoDup_app in Hnd as (_ & Hnd & _). apply (Hnd _ Hin). by left.
    - by apply (child_not_base 1000). }
  assert (size (visited_urls s1) = 1000) as Hs1.
  { rewrite E1, size_union, size_singleton, size_list_to_set, children_length;
      [done|apply children_NoDup|].
    intros a (i & -> & _)%elem_of_list_to_set%list_elem_of_fmap ?%elem_of_singleton.
    by apply (child_not_base i). }
  split; [exact Hs1|].
  subst s2. rewrite (crawl_unanswered Site.hub Site.urljoin (Site.child 1000) s1 Hnew
                       (hub_unanswered 1000)).
  rewrite size_union, size_singleton, Hs1; [done|].
  intros a ->%elem_of_singleton. exact Hnew.
Qed.

(** ** The properties on the example sites *)

Lemma new_scraper_reachable web urljoin : reachable web urljoin new_scraper.
Proof. exists BASE_URL, OUTPUT_DIR, DELAY, ∅. apply run_here. Defined.

Lemma crawled_reachable web urljoin start :
  reachable web urljoin (crawl web urljoin start new_scraper).
Proof. exists BASE_URL, OUTPUT_DIR, DELAY, ∅. apply crawl_run_from. Defined.

(** C1, counterexample. The listing has three raw targets, one of them a
    PDF; after the crawl the page record has the two other links, and so has
    the link map: the PDF target is in neither. *)
Lemma link_map_lacks_pdf_target :
  let soup := Site.page [Site.child 1; Site.child 2; Site.guide_pdf] in
  let s := crawl Site.with_pdf Site.urljoin None new_scraper in
  Site.with_pdf BASE_URL = Some soup
  ∧ raw_targets Site.urljoin soup BASE_URL
    = [Site.child 1; Site.child 2; Site.guide_pdf]
  ∧ p_links <$> pages s !! BASE_URL
    = Some [mkLink (Site.child 1) "link"; mkLink (Site.child 2) "link"]
  ∧ link_map s !! BASE_URL = Some [Site.child 1; Site.child 2].
Proof. vm_compute. done. Qed.

Lemma link_map_holds_kept_links_witness :
  let soup := Site.page [Site.child 1; Site.child 2; Site.guide_pdf] in
  let r := loop_body Site.with_pdf Site.urljoin new_scraper (mkLocals [BASE_URL] 0) in
  link_map r.1 !! BASE_URL
  = targets_of (extract_page_info Site.urljoin soup BASE_URL).
Proof.
  intros soup r.
  assert (Site.with_pdf BASE_URL = Some soup) as Hw by (vm_compute; reflexivity).
  destruct (link_map_holds_kept_links Site.with_pdf Site.urljoin new_scraper
              BASE_URL [] 0 soup (new_scraper_reachable _ _)
              (not_elem_of_empty _) Hw) as (_ & _ & H & _).
  exact H.
Defined.

Lemma failed_fetch_is_visited_not_retried_witness :
  let r := loop_body Site.dead Site.urljoin new_scraper (mkLocals [BASE_URL] 0) in
  r.2 = mkLocals [] 1 ∧ pages r.1 = ∅ ∧ trace r.1 = [EvGet BASE_URL].
Proof.
  intros r.
  destruct (failed_fetch_is_visited_not_retried Site.dead Site.urljoin
              new_scraper BASE_URL [] 0 (not_elem_of_empty _) eq_refl)
    as (_ & _ & Hl & Hp & _ & _ & Ht & _).
  split_and!; [exact Hl|exact Hp|exact Ht].
Defined.

Lemma crawl_adds_at_most_cap_witness :
  let s1 := crawl Site.dead Site.urljoin None new_scraper in
  size (visited_urls s1) ≤ MAX_PAGES
  ∧ loop_body Site.dead Site.urljoin s1 (mkLocals [BASE_URL] 0)
    = (s1, mkLocals [] 0).
Proof.
  intros s1. split.
  - destruct (crawl_adds_at_most_cap Site.dead Site.urljoin new_scraper None)
      as (_ & _ & H & _).
    apply H. reflexivity.
  - destruct (crawl_adds_at_most_cap Site.dead Site.urljoin s1 None)
      as (_ & _ & _ & H).
    apply H. apply (bool_decide_unpack (BASE_URL ∈ visited_urls s1)).
    vm_compute. exact I.
Defined.

(** C4, counterexample. A second [crawl] from a start URL that the first
    one has visited begins with that URL in the queue. *)
Lemma visited_start_url_is_queued :
  let s1 := crawl Site.dead Site.urljoin None new_scraper in
  let l := start_locals s1 None in
  urls_to_visit l = [BASE_URL] ∧ BASE_URL ∈ urls_to_visit l
  ∧ BASE_URL ∈ visited_urls s1.
Proof.
  intros s1 l. split_and!.
  - reflexivity.
  - apply list_elem_of_singleton. reflexivity.
  - apply (bool_decide_unpack (BASE_URL ∈ visited_urls s1)). vm_compute. exact I.
Qed.

Lemma queue_is_fifo_without_duplicates_witness :
  let r := iterate Site.with_pdf Site.urljoin 1 new_scraper
             (start_locals new_scraper None) in
  NoDup (urls_to_visit r.2)
  ∧ ∀ url, url ∈ urls_to_visit r.2 -> url ∉ visited_urls r.1.
Proof.
  intros r.
  destruct (queue_is_fifo_without_duplicates Site.with_pdf Site.urljoin
              new_scraper None 1) as (Hnd & H & _).
  split; [exact Hnd|]. apply H. left. lia.
Defined.



(** C6, counterexample. On the listing site the tenth counted visit of a
    first [crawl] is a failed fetch, and no checkpoint exists after it; and
    in a [crawl] on a scraper that has visited one URL before, the
    checkpoint written at the tenth visit holds eleven URLs. *)
Lemma no_checkpoint_or_eleven_urls_at_tenth_visit :
  (let r := iterate Site.listing Site.urljoin 10 new_scraper
              (start_locals new_scraper None) in
   page_counter r.2 = 10
   ∧ last (fetched (trace r.1)) = Some (Site.child 9)
   ∧ Site.listing (Site.child 9) = None
   ∧ fs r.1 !! link_map_path new_scraper = None
   ∧ fs r.1 !! visited_urls_path new_scraper = None)
  ∧ (let s1 := crawl Site.listing Site.urljoin (Some (Site.child 9)) new_scraper in
     let r := iterate Site.listing Site.urljoin 10 s1 (start_locals s1 None) in
     page_counter r.2 = 10
     ∧ last (trace r.1) = Some (EvSleep 1)
     ∧ ∃ urls, fs r.1 !! visited_urls_path s1 = Some (VisitedFile urls)
               ∧ length urls = 11).
Proof.
  split.
  - vm_compute. done.
  - vm_compute. split_and!; [done..|]. eexists. split; reflexivity.
Qed.

Lemma checkpoint_on_tenth_fetched_visit_witness :
  let r := loop_body Site.with_pdf Site.urljoin new_scraper (mkLocals [BASE_URL] 9) in
  fs r.1 !! link_map_path new_scraper = Some (LinkMapFile (link_map r.1))
  ∧ fs (crawl Site.dead Site.urljoin None new_scraper) !! link_map_path new_scraper
    = Some (LinkMapFile (link_map (crawl Site.dead Site.urljoin None new_scraper))).
Proof.
  intros r.
  destruct (checkpoint_on_tenth_fetched_visit Site.with_pdf Site.urljoin
              new_scraper None) as (H & _ & _).
  assert (Site.with_pdf BASE_URL
          = Some (Site.page [Site.child 1; Site.child 2; Site.guide_pdf])) as Hw
    by (vm_compute; reflexivity).
  destruct (H BASE_URL [] 9 _ (not_elem_of_empty _) Hw eq_refl) as (Hl & _).
  split; [exact Hl|].
  destruct (checkpoint_on_tenth_fetched_visit Site.dead Site.urljoin
              new_scraper None) as (_ & H2 & _).
  destruct H2 as (Hl2 & _). exact Hl2.
Defined.

Lemma link_graph_joins_known_pages_witness :
  ∃ p, build_link_graph
         (load_data (new_processor OUTPUT_DIR "umich_arc_processed"
                       (fs (crawl Site.with_pdf Site.urljoin None new_scraper))))
       = Some p.
Proof.
  destruct (link_graph_joins_known_pages OUTPUT_DIR "umich_arc_processed"
              (proc_pages
                 (load_data (new_processor OUTPUT_DIR "umich_arc_processed"
                    (fs (crawl Site.with_pdf Site.urljoin None new_scraper)))))
              (fs (crawl Site.with_pdf Site.urljoin None new_scraper)))
    as (p & _ & _ & H & _).
  exists p. exact H.
Defined.

Lemma link_map_keys_are_pages_with_links_witness :
  let s := crawl Site.with_pdf Site.urljoin None new_scraper in
  (is_Some (link_map s !! BASE_URL)
   ↔ ∃ page_info, pages s !! BASE_URL = Some page_info ∧ p_links page_info ≠ [])
  ∧ (is_Some (link_map s !! Site.child 1)
     ↔ ∃ page_info, pages s !! Site.child 1 = Some page_info
                    ∧ p_links page_info ≠ []).
Proof.
  intros s.
  destruct (link_map_keys_are_pages_with_links Site.with_pdf Site.urljoin s
              (crawled_reachable _ _ _)) as (H & _).
  split; apply H.
Defined.

Lemma page_file_named_by_path_and_query_witness :
  let p1 := mkPage Site.faq_http "FAQ" "" [] in
  let p2 := mkPage Site.faq_https "FAQ" "" [] in
  Site.faq_http ≠ Site.faq_https
  ∧ page_filename Site.faq_http = page_filename Site.faq_https
  ∧ fs (save_page p2 (save_page p1 new_scraper).2).2 !! (save_page p1 new_scraper).1
    = Some (PageFile p2).
Proof.
  intros p1 p2.
  assert (path (urlparse (p_url p1)) = path (urlparse (p_url p2))) as Hp
    by (vm_compute; reflexivity).
  assert (query (urlparse (p_url p1)) = query (urlparse (p_url p2))) as Hq
    by (vm_compute; reflexivity).
  destruct (page_file_named_by_path_and_query new_scraper p1 p2 Hp Hq)
    as (Hn & _ & Hf).
  split_and!; [discriminate|exact Hn|exact Hf].
Defined.

(** * Further properties of the scraper *)

Section Scraped.

Variable web : string -> option Soup.
Variable urljoin : string -> string -> string.

Local Abbreviation loop_body := (loop_body web urljoin).
Local Abbreviation iterate := (iterate web urljoin).
Local Abbreviation crawl := (crawl web urljoin).
Local Abbreviation turn := (turn web urljoin).
Local Abbreviation run_from := (run_from web urljoin).
Local Abbreviation reachable := (reachable web urljoin).
Local Abbreviation extract_page_info := (extract_page_info urljoin).

(** Induction over the scrapers a fresh one can get to. *)
Lemma reachable_inv (P : Scraper -> Prop) :
  (∀ base output d files, P (init base output d files)) ->
  (∀ s l s' l', consistent s -> P s -> turn s l s' l' -> P s') ->
  (∀ s, P s -> P (save_progress s)) ->
  (∀ s, P s -> P (create_index s)) ->
  ∀ s, reachable s -> P s.
Proof.
  intros Hinit Hturn Hprogress Hindex s (base & output & d & files & Hrun).
  induction Hrun as [ | s l Hrun IH | s _ IH | s _ IH ]; [apply Hinit| | |].
  - eapply Hturn; [|exact IH|apply loop_body_turn].
    eapply run_from_consistent; [apply init_consistent|exact Hrun].
  - by apply Hprogress.
  - by apply Hindex.
Qed.

Lemma iterate_add n k s l :
  iterate (n + k) s l = iterate k (iterate n s l).1 (iterate n s l).2.
Proof.
  revert s l. induction n as [|n IH]; intros s l; [done|].
  change (S n + k) with (S (n + k)). rewrite !iterate_S.
  destruct (loop_cond l) eqn:Hl; [apply IH|].
  simpl. destruct k; [done|]. by rewrite iterate_S, Hl.
Qed.

(** *** Requests *)

Lemma turn_requests s l s' l' :
  turn s l s' l' ->
  length (fetched (trace s')) + page_counter l
  = length (fetched (trace s)) + page_counter l'.
Proof.
  intros [ | url rest ? ? | url rest ? Hv ? | url rest soup ? Hv ? ]; unlet;
    cbn [trace page_counter emit set_visited_urls];
    rewrite ?fetched_app, ?fetched_visit_events, ?length_app; simpl; lia.
Qed.

Lemma iterate_requests n s l :
  length (fetched (trace (iterate n s l).1)) + page_counter l
  = length (fetched (trace s)) + page_counter (iterate n s l).2.
Proof.
  revert s l. induction n as [|n IH]; intros s l; [done|].
  rewrite iterate_S. destruct (loop_cond l); [|done].
  pose proof (turn_requests _ _ _ _ (loop_body_turn web urljoin s l)).
  pose proof (IH (loop_body s l).1 (loop_body s l).2). lia.
Qed.

(** X1. The loop of [crawl] is over after at most [MAX_PAGES] turns, and a
    call makes as many requests as its page counter says in the end: at
    most [MAX_PAGES]. *)
Theorem crawl_ends_within_cap s start :
  let r := iterate MAX_PAGES s (start_locals s start) in
  loop_cond r.2 = false
  ∧ crawl start s = save_progress r.1
  ∧ length (fetched (trace (crawl start s)))
    = length (fetched (trace s)) + page_counter r.2
  ∧ page_counter r.2 ≤ MAX_PAGES.
Proof.
  intros r. split_and!.
  - apply crawl_loop_exits.
  - done.
  - unfold crawl. fold r.
    destruct (save_progress_fields r.1) as (_ & _ & _ & ->).
    rewrite fetched_app. simpl. rewrite app_nil_r.
    pose proof (iterate_requests MAX_PAGES s (start_locals s start)) as H.
    fold r in H. simpl in H. lia.
  - destruct (iterate_count web urljoin MAX_PAGES s (start_locals s start)) as [_ H];
      [simpl; lia|]. apply H.
Qed.

(** X2. A scraper requests no URL twice in its life, and its visited set
    is exactly the set of the URLs it has requested. *)
Theorem every_url_requested_once s :
  reachable s ->
  NoDup (fetched (trace s))
  ∧ ∀ url, url ∈ visited_urls s ↔ url ∈ fetched (trace s).
Proof.
  intros Hr. pose proof (reachable_consistent _ _ _ Hr) as [_ _ Hnd Hfv].
  split; [done|]. intros url. split; [|apply Hfv]. revert url.
  clear Hnd Hfv. revert s Hr.
  apply (reachable_inv (λ s, ∀ url, url ∈ visited_urls s -> url ∈ fetched (trace s))).
  - intros base output d files url. simpl. set_solver.
  - intros s l s' l' _ IH Ht url.
    destruct Ht as [ | u rest ? ? | u rest ? Hv ? | u rest soup ? Hv ? ]; unlet;
      [apply IH..| |]; cbn [visited_urls trace emit set_visited_urls];
      rewrite fetched_app, ?fetched_visit_events, ?extract_page_info_url;
      cbn [fetched omap list_omap]; rewrite elem_of_union, elem_of_app;
      (intros [->%elem_of_singleton|Hin]; [right; by left|left; by apply IH]).
  - intros s IH url. destruct (save_progress_fields s) as (-> & _ & _ & ->).
    rewrite fetched_app. simpl. rewrite app_nil_r. apply IH.
  - intros s IH url. destruct (create_index_fields s) as (-> & _ & _ & ->).
    rewrite fetched_app. simpl. rewrite app_nil_r. apply IH.
Qed.

(** *** The page store *)

Lemma stored_page_source s url page_info :
  reachable s -> pages s !! url = Some page_info ->
  ∃ soup, web url = Some soup ∧ page_info = extract_page_info soup url.
Proof.
  intros Hr. revert s Hr url page_info.
  apply (reachable_inv (λ s, ∀ url page_info, pages s !! url = Some page_info ->
           ∃ soup, web url = Some soup ∧ page_info = extract_page_info soup url)).
  - intros base output d files url p. simpl. by rewrite lookup_empty.
  - intros s l s' l' _ IH Ht url p.
    destruct Ht as [ | u rest ? ? | u rest ? Hv ? | u rest soup ? Hv Hw ]; unlet;
      [apply IH..|]. cbn [pages].
    destruct (decide (url = u)) as [->|Hne].
    + rewrite lookup_insert_eq. intros [= <-]. by exists soup.
    + rewrite lookup_insert_ne by done. apply IH.
  - intros s IH url p. destruct (save_progress_fields s) as (_ & -> & _). apply IH.
  - intros s IH url p. destruct (create_index_fields s) as (_ & -> & _). apply IH.
Qed.

(** X3. Every record in the page store is what [extract_page_info] makes
    of the document that the site serves at the record's key, so it carries
    that key as its URL; and the key is a visited URL. *)
Theorem stored_pages_are_extractions s url page_info :
  reachable s -> pages s !! url = Some page_info ->
  (∃ soup, web url = Some soup ∧ page_info = extract_page_info soup url)
  ∧ p_url page_info = url
  ∧ url ∈ visited_urls s.
Proof.
  intros Hr Hp.
  destruct (stored_page_source s url page_info Hr Hp) as (soup & Hw & ->).
  split_and!; [by exists soup|apply extract_page_info_url|].
  apply (pages_visited s); [by eapply reachable_consistent|].
  apply elem_of_dom. by eexists.
Qed.

Lemma turn_grows s l s' l' :
  consistent s -> turn s l s' l' ->
  pages s ⊆ pages s' ∧ link_map s ⊆ link_map s'.
Proof.
  intros Hc [ | u rest ? ? | u rest ? Hv ? | u rest soup ? Hv Hw ]; unlet;
    [done..|]. cbn [pages link_map].
  assert (pages s !! u = None) as Hp.
  { apply not_elem_of_dom. intros Hin. by apply Hv, (pages_visited s Hc). }
  split; [by apply insert_subseteq|].
  apply map_subseteq_spec. intros k targets Hk.
  destruct (decide (k = u)) as [->|Hne].
  - rewrite (link_map_pages s Hc), Hp in Hk. done.
  - by rewrite record_links_other.
Qed.

(** X4. The page store and the link map only grow: a record, or a link map
    entry, that a scraper once has is there unchanged at every later point
    of its life, and so is every visited URL. *)
Theorem records_are_never_changed s s' :
  reachable s -> run_from s s' ->
  pages s ⊆ pages s' ∧ link_map s ⊆ link_map s' ∧ visited_urls s ⊆ visited_urls s'.
Proof.
  intros Hr Hrun. pose proof (reachable_consistent _ _ _ Hr) as Hc.
  split_and!; [| |by apply (run_from_trace web urljoin s s')].
  - induction Hrun as [ | t l Hrun IH | t _ IH | t _ IH ]; [done| | |].
    + etrans; [exact IH|].
      eapply turn_grows; [|apply loop_body_turn]. by eapply run_from_consistent.
    + by destruct (save_progress_fields t) as (_ & -> & _).
    + by destruct (create_index_fields t) as (_ & -> & _).
  - induction Hrun as [ | t l Hrun IH | t _ IH | t _ IH ]; [done| | |].
    + etrans; [exact IH|].
      eapply turn_grows; [|apply loop_body_turn]. by eapply run_from_consistent.
    + by destruct (save_progress_fields t) as (_ & _ & -> & _).
    + by destruct (create_index_fields t) as (_ & _ & -> & _).
Qed.

(** *** Pauses *)

Lemma sleeps_app t1 t2 : sleeps (t1 ++ t2) = sleeps t1 ++ sleeps t2.
Proof. apply omap_app. Qed.

Lemma sleeps_visit_events s page_info counter :
  sleeps (visit_events s page_info counter) = [delay s].
Proof. unfold visit_events. by destruct (counter mod 10 =? 0). Qed.

(** X5. The scraper pauses once for every page it stores, each time for
    its configured delay: a failed fetch and a dropped URL are followed by
    no pause. *)
Theorem one_pause_per_stored_page s :
  reachable s -> sleeps (trace s) = replicate (size (pages s)) (delay s).
Proof.
  revert s. apply reachable_inv.
  - intros base output d files. simpl. by rewrite map_size_empty.
  - intros s l s' l' Hc IH Ht.
    destruct Ht as [ | u rest ? ? | u rest ? Hv ? | u rest soup ? Hv Hw ]; unlet;
      [done..| |].
    + cbn [trace emit set_visited_urls pages delay]. rewrite sleeps_app. simpl.
      by rewrite app_nil_r.
    + cbn [trace pages delay]. rewrite sleeps_app, sleeps_visit_events, IH.
      rewrite map_size_insert_None.
      * by rewrite <- replicate_cons_app.
      * apply not_elem_of_dom. intros Hin. by apply Hv, (pages_visited s Hc).
  - intros s IH. destruct (save_progress_fields s) as (_ & -> & _ & ->).
    rewrite sleeps_app. simpl. rewrite app_nil_r.
    by replace (delay (save_progress s)) with (delay s) by (by destruct s).
  - intros s IH. destruct (create_index_fields s) as (_ & -> & _ & ->).
    rewrite sleeps_app. simpl. rewrite app_nil_r.
    by replace (delay (create_index s)) with (delay s) by (by destruct s).
Qed.

End Scraped.

(** * The traversal *)

Section Traversal.

Variable web : string -> option Soup.
Variable urljoin : string -> string -> string.

Local Abbreviation loop_body := (loop_body web urljoin).
Local Abbreviation iterate := (iterate web urljoin).
Local Abbreviation crawl := (crawl web urljoin).
Local Abbreviation turn := (turn web urljoin).
Local Abbreviation run_from := (run_from web urljoin).
Local Abbreviation extract_page_info := (extract_page_info urljoin).

(** X6. After [crawl] its start URL is visited, whether this call
    requested it or an earlier one had. *)
Theorem crawl_visits_its_start s start :
  default (base_url s) start ∈ visited_urls (crawl start s).
Proof.
  unfold crawl.
  destruct (save_progress_fields (iterate MAX_PAGES s (start_locals s start)).1)
    as (-> & _).
  pose proof MAX_PAGES_pos. destruct MAX_PAGES as [|n]; [lia|].
  rewrite iterate_S, loop_cond_start.
  apply (run_from_trace web urljoin (loop_body s (start_locals s start)).1);
    [apply iterate_run_from|].
  pose proof (loop_body_turn web urljoin s (start_locals s start)) as Ht.
  destruct Ht as [ E | u rest E ? | u rest E Hv ? | u rest soup E Hv ? ]; unlet;
    simpl in E; simplify_eq; simpl; set_solver.
Qed.

(** What a turn does to the requests made and the queue, read together. *)
Lemma turn_order s l s' l' :
  queue_ok s l -> turn s l s' l' ->
  ∃ added, fetched (trace s') ++ urls_to_visit l'
           = (fetched (trace s) ++ urls_to_visit l) ++ added.
Proof.
  intros [_ Hq] [ E | u rest E Hv | u rest E Hv ? | u rest soup E Hv ? ]; unlet.
  - exists []. by rewrite app_nil_r.
  - exfalso. apply (Hq u); [rewrite E; by left|done].
  - exists []. rewrite E, app_nil_r. cbn [trace emit set_visited_urls urls_to_visit].
    by rewrite fetched_app, <- app_assoc.
  - destruct (enqueue_all_spec ({[u]} ∪ visited_urls s)
                (l_url <$> p_links (extract_page_info soup u)) rest)
      as (added & Eq & _).
    exists added. rewrite E. cbn [trace urls_to_visit].
    rewrite Eq, fetched_app, fetched_visit_events, extract_page_info_url.
    by rewrite <- !app_assoc.
Qed.

Lemma iterate_order k s l :
  queue_ok s l ->
  (fetched (trace s) ++ urls_to_visit l)
    `prefix_of` (fetched (trace (iterate k s l).1) ++ urls_to_visit (iterate k s l).2).
Proof.
  revert s l. induction k as [|k IH]; intros s l Hq; [done|].
  rewrite iterate_S. destruct (loop_cond l); [|done].
  pose proof (loop_body_turn web urljoin s l) as Ht.
  destruct (turn_order _ _ _ _ Hq Ht) as (added & E).
  etrans; [|apply IH; by eapply turn_queue_ok].
  rewrite E. by apply prefix_app_r.
Qed.

(** X7. URLs are requested in the order in which they entered the queue:
    in a call whose start URL is not yet visited, the requests made so far
    followed by the queue only ever grow at the end. *)
Theorem requests_follow_queue_order s start n k :
  default (base_url s) start ∉ visited_urls s ->
  let before := iterate n s (start_locals s start) in
  let after := iterate (n + k) s (start_locals s start) in
  (fetched (trace before.1) ++ urls_to_visit before.2)
    `prefix_of` (fetched (trace after.1) ++ urls_to_visit after.2).
Proof.
  intros Hv before after. subst after. rewrite iterate_add. fold before.
  apply iterate_order. subst before. apply iterate_start_queue_ok. by right.
Qed.

Lemma enqueue_all_covers (visited : gset string) targets queue target :
  target ∈ targets -> Str.contains DOC_HOST target = true ->
  target ∈ visited ∨ target ∈ foldl (enqueue visited) queue targets.
Proof.
  revert queue. induction targets as [|x targets IH]; intros queue Ht Hc;
    [by apply elem_of_nil in Ht|].
  apply elem_of_cons in Ht as [->|Ht]; [|by apply IH].
  simpl. destruct (enqueue_all_spec visited targets (enqueue visited queue x))
    as (added & -> & _).
  unfold enqueue. case_bool_decide as Hx.
  - right. rewrite !elem_of_app. left. right. by left.
  - destruct (decide (x ∈ visited)); [by left|].
    right. apply elem_of_app. left.
    destruct (decide (x ∈ queue)); [done|]. naive_solver.
Qed.

(** X8. No discovered link is lost: after a successful visit every link
    of the new record whose target has the documentation host in it is
    either visited or waiting in the queue. *)
Theorem fetched_links_are_queued s url rest c soup link :
  url ∉ visited_urls s -> web url = Some soup ->
  link ∈ p_links (extract_page_info soup url) ->
  Str.contains DOC_HOST (l_url link) = true ->
  let r := loop_body s (mkLocals (url :: rest) c) in
  l_url link ∈ visited_urls r.1 ∨ l_url link ∈ urls_to_visit r.2.
Proof.
  intros Hv Hw Hin Hhost r. subst r.
  pose proof (loop_body_fetched web urljoin s url rest c soup Hv Hw) as E.
  cbv zeta in E. rewrite E. clear E. cbn [fst snd visited_urls urls_to_visit].
  apply enqueue_all_covers; [|done]. apply list_elem_of_fmap. by exists link.
Qed.

Lemma turn_links_followed s0 s l s' l' :
  consistent s -> links_followed s0 s l -> turn s l s' l' ->
  links_followed s0 s' l'.
Proof.
  intros Hc Hf Ht.
  destruct Ht as [ E | u rest E Hu | u rest E Hu Hw | u rest soup E Hu Hw ]; unlet.
  - done.
  - intros url p link Hp H0 Hin Hhost.
    destruct (Hf url p link Hp H0 Hin Hhost) as [?|Hq]; [by left|].
    rewrite E in Hq. apply elem_of_cons in Hq as [->|?]; [by left|by right].
  - intros url p link Hp H0 Hin Hhost. cbn [pages emit set_visited_urls] in Hp.
    cbn [visited_urls emit set_visited_urls urls_to_visit].
    destruct (Hf url p link Hp H0 Hin Hhost) as [?|Hq]; [left; set_solver|].
    rewrite E in Hq. apply elem_of_cons in Hq as [->|?]; [left; set_solver|by right].
  - intros url p link Hp H0 Hin Hhost. cbn [pages] in Hp.
    cbn [visited_urls urls_to_visit].
    destruct (decide (url = u)) as [->|Hne].
    + rewrite lookup_insert_eq in Hp. injection Hp as <-.
      apply enqueue_all_covers; [|done]. apply list_elem_of_fmap. by exists link.
    + rewrite lookup_insert_ne in Hp by done.
      destruct (enqueue_all_spec ({[u]} ∪ visited_urls s)
                  (l_url <$> p_links (extract_page_info soup u)) rest)
        as (added & -> & _).
      destruct (Hf url p link Hp H0 Hin Hhost) as [?|Hq]; [left; set_solver|].
      rewrite E in Hq. apply elem_of_cons in Hq as [->|?]; [left; set_solver|].
      right. apply elem_of_app. by left.
Qed.

Lemma iterate_links_followed s0 n s l :
  consistent s -> links_followed s0 s l ->
  links_followed s0 (iterate n s l).1 (iterate n s l).2.
Proof.
  revert s l. induction n as [|n IH]; intros s l Hc Hf; [done|].
  rewrite iterate_S. destruct (loop_cond l); [|done].
  pose proof (loop_body_turn web urljoin s l) as Ht.
  apply IH; [by eapply turn_consistent|by eapply turn_links_followed].
Qed.

(** X9. A [crawl] that stops before the cap is reached has followed every
    link it found: the target of every link of every record stored during
    the call is visited, provided it has the documentation host in it. *)
Theorem crawl_below_cap_is_complete s start url page_info link :
  consistent s ->
  let r := iterate MAX_PAGES s (start_locals s start) in
  page_counter r.2 < MAX_PAGES ->
  pages (crawl start s) !! url = Some page_info -> pages s !! url = None ->
  link ∈ p_links page_info -> Str.contains DOC_HOST (l_url link) = true ->
  l_url link ∈ visited_urls (crawl start s).
Proof.
  intros Hc r Hcap Hp H0 Hin Hhost. unfold crawl in *. fold r in Hp |- *.
  destruct (save_progress_fields r.1) as (Ev & Ep & _). rewrite Ev. rewrite Ep in Hp.
  assert (links_followed s r.1 r.2) as Hf.
  { apply iterate_links_followed; [done|].
    intros u p k Hu Hn. by rewrite Hu in Hn. }
  pose proof (crawl_loop_exits web urljoin s start) as Hexit. fold r in Hexit.
  apply not_true_iff_false in Hexit. rewrite loop_cond_true in Hexit.
  assert (urls_to_visit r.2 = []) as Hq.
  { destruct (urls_to_visit r.2); [done|]. exfalso. apply Hexit. by split. }
  destruct (Hf url page_info link Hp H0 Hin Hhost) as [?|Hin']; [done|].
  rewrite Hq in Hin'. by apply elem_of_nil in Hin'.
Qed.

(** X10. What [extract_page_info] puts into a record: the URL it was
    given; the title ["No Title"] for a document without title; for a
    document without main content region no content and no links; and
    links that all pass [is_valid_url], have a text that is not empty, and
    number no more than the anchors of the region. *)
Theorem extracted_record_is_well_formed soup url :
  let page_info := extract_page_info soup url in
  p_url page_info = url
  ∧ (soup_title soup = None -> p_title page_info = "No Title")
  ∧ (region_content soup = None ->
     p_content page_info = "" ∧ p_links page_info = [])
  ∧ (∀ link, link ∈ p_links page_info ->
       is_valid_url (l_url link) = true ∧ l_text link ≠ ""
       ∧ l_url link ∈ raw_targets urljoin soup url)
  ∧ length (p_links page_info) ≤ length (raw_targets urljoin soup url).
Proof.
  intros page_info. subst page_info. unfold extract_page_info, raw_targets.
  destruct (region_content soup) as [main|]; simpl.
  - split_and!; [done| |done| |].
    + by intros ->.
    + intros link (a & Hin & Ha)%list_elem_of_omap. unfold extract_link in Ha.
      destruct (is_valid_url (urljoin url (href a))) eqn:Hvalid; [|done].
      injection Ha as <-. simpl. split_and!; [done| |].
      * destruct (String.eqb (get_text "" (anchor_strings a)) "") eqn:E; [done|].
        by apply String.eqb_neq in E.
      * apply list_elem_of_fmap. by exists a.
    + rewrite length_fmap. induction (tag_anchors main) as [|a anchors IH]; [done|].
      cbn [omap list_omap]. change (list_omap _ _ ?f ?l) with (omap f l).
      destruct (extract_link urljoin url a); simpl; lia.
  - split_and!; [done| |done| |done].
    + by intros ->.
    + by intros link ?%elem_of_nil.
Qed.

End Traversal.

(** * Files *)

Lemma safe_char_safe c : safe_name_char (safe_char c) = true.
Proof. by destruct c as [[] [] [] [] [] [] [] []]. Qed.

Lemma forallb_map_safe s : Str.forallb safe_name_char (Str.map safe_char s) = true.
Proof.
  induction s as [|c s IH]; [done|]. cbn [Str.map Str.forallb].
  by rewrite safe_char_safe, IH.
Qed.

Lemma forallb_app f a b :
  Str.forallb f (a +:+ b) = Str.forallb f a && Str.forallb f b.
Proof.
  induction a as [|c a IH]; [done|]. rewrite append_cons. cbn [Str.forallb].
  rewrite IH. by destruct (f c).
Qed.

Lemma map_app f a b : Str.map f (a +:+ b) = Str.map f a +:+ Str.map f b.
Proof.
  induction a as [|c a IH]; [done|]. rewrite append_cons. cbn [Str.map].
  by rewrite append_cons, IH.
Qed.

Lemma map_empty f s : Str.map f s = "" ↔ s = "".
Proof. by destruct s. Qed.

Lemma eqb_empty s : String.eqb s "" = true ↔ s = "".
Proof. apply String.eqb_eq. Qed.

Lemma append_empty a b : a +:+ b = "" -> a = "".
Proof. by destruct a. Qed.

(** X11. For a page whose URL is ASCII text with no bracket in its network
    location, the name of the page file is never empty and consists of
    ASCII letters, digits, [_], [-] and [.] only; the file lies directly in
    the output directory, under that name followed by [.json]. (On other
    URLs [urlparse] may raise, and [\w] keeps letters that are not ASCII;
    the hypothesis keeps the statement to the URLs on which [is_word] is
    Python's class.) *)
Theorem page_file_name_is_safe s page_info :
  plain_url (p_url page_info) = true ->
  let name := page_filename (p_url page_info) in
  name ≠ ""
  ∧ Str.forallb safe_name_char name = true
  ∧ entry_name (output_dir s) (save_page page_info s).1 = Some (name +:+ ".json").
Proof.
  intros _ name. split_and!.
  - subst name. unfold page_filename.
    assert (Str.map safe_char
              (if String.eqb (Str.map slash_to_underscore
                                (path (urlparse (p_url page_info)))) ""
               then "index"
               else Str.map slash_to_underscore (path (urlparse (p_url page_info))))
            ≠ "") as Hne.
    { destruct (String.eqb _ "") eqn:E; [done|].
      apply String.eqb_neq in E. by rewrite map_empty. }
    destruct (negb _); [|done]. by intros ?%append_empty.
  - subst name. unfold page_filename. destruct (negb _);
      rewrite ?forallb_app, !forallb_map_safe; done.
  - unfold save_page. cbn [fst]. unfold page_filepath.
    apply entry_name_join, page_filename_no_slash.
Qed.

(** X12. [create_index] writes an index with one entry for every record of
    the page store, carrying its URL, its title and the number of its links;
    the page count in the index is the number of entries; and the scraper's
    visited set, page store and link map are as before. *)
Theorem index_lists_the_page_store s :
  ∃ entries,
    fs (create_index s) !! os_path_join (output_dir s) "index.json"
    = Some (IndexFile (length entries) entries)
    ∧ length entries = size (pages s)
    ∧ NoDup (entries.*1.*1)
    ∧ (∀ url title n,
         (url, title, n) ∈ entries
         ↔ ∃ page_info, pages s !! url = Some page_info
                        ∧ p_title page_info = title
                        ∧ length (p_links page_info) = n)
    ∧ visited_urls (create_index s) = visited_urls s
    ∧ pages (create_index s) = pages s
    ∧ link_map (create_index s) = link_map s.
Proof.
  set (entries := (fun kv : string * PageInfo =>
                     (kv.1, p_title kv.2, length (p_links kv.2)))
                  <$> map_to_list (pages s)).
  assert (length entries = size (pages s)) as Hlen.
  { subst entries. by rewrite length_fmap, length_map_to_list. }
  exists entries. split_and!.
  - destruct s. cbn. rewrite lookup_insert_eq. fold entries. by rewrite Hlen.
  - exact Hlen.
  - subst entries. rewrite <- !list_fmap_compose.
    apply (NoDup_fst_map_to_list (pages s)).
  - intros url title n. subst entries. rewrite list_elem_of_fmap. split.
    + intros ([u p] & [= -> -> ->] & Hin). apply elem_of_map_to_list in Hin.
      by exists p.
    + intros (p & Hp & <- & <-). exists (url, p). split; [done|].
      by apply elem_of_map_to_list.
  - by destruct s.
  - by destruct s.
  - by destruct s.
Qed.

(** *** Loading *)

Lemma load_file_loadable dir files acc filename :
  load_file dir files acc filename
  = match loadable dir files filename with
    | Some page_data => <[p_url page_data := page_data]> acc
    | None => acc
    end.
Proof.
  unfold load_file, loadable. destruct (is_page_file filename); [|done].
  by destruct (files !! os_path_join dir filename) as [[]|].
Qed.

Lemma load_files_sound dir files names acc url page_info :
  foldl (load_file dir files) acc names !! url = Some page_info ->
  acc !! url = Some page_info
  ∨ (p_url page_info = url
     ∧ ∃ filename, filename ∈ names ∧ loadable dir files filename = Some page_info).
Proof.
  revert acc. induction names as [|name names IH]; intros acc; simpl; [by left|].
  intros H. apply IH in H as [H|(? & filename & ? & ?)].
  - rewrite load_file_loadable in H.
    destruct (loadable dir files name) as [q|] eqn:E; [|by left].
    destruct (decide (p_url q = url)) as [<-|Hne].
    + rewrite lookup_insert_eq in H. injection H as <-. right. split; [done|].
      exists name. split; [by left|done].
    + rewrite lookup_insert_ne in H by done. by left.
  - right. split; [done|]. exists filename. split; [by right|done].
Qed.

Lemma load_files_complete dir files names acc url page_info filename :
  filename ∈ names -> loadable dir files filename = Some page_info ->
  p_url page_info = url ->
  (∀ name other, name ∈ names -> loadable dir files name = Some other ->
                 p_url other = url -> other = page_info) ->
  foldl (load_file dir files) acc names !! url = Some page_info.
Proof.
  intros Hin Hload Hurl Huniq.
  assert (∀ names acc,
            (∀ name other, name ∈ names -> loadable dir files name = Some other ->
                           p_url other = url -> other = page_info) ->
            acc !! url = Some page_info ->
            foldl (load_file dir files) acc names !! url = Some page_info) as Hkeep.
  { clear. induction names as [|name names IH]; intros acc Huniq Hacc; [done|].
    simpl. apply IH; [intros ? ? ?; apply Huniq; by right|].
    rewrite load_file_loadable. destruct (loadable dir files name) as [q|] eqn:E; [|done].
    destruct (decide (p_url q = url)) as [Hq|Hne].
    - assert (q = page_info) as -> by (apply (Huniq name); [by left|done..]).
      rewrite Hq. apply lookup_insert_eq.
    - by rewrite lookup_insert_ne. }
  revert acc. induction names as [|name names IH]; intros acc;
    [by apply elem_of_nil in Hin|].
  simpl. apply elem_of_cons in Hin as [->|Hin].
  - apply Hkeep; [intros ? ? ?; apply Huniq; by right|].
    rewrite load_file_loadable, Hload, <- Hurl. apply lookup_insert_eq.
  - apply IH; [done|]. intros ? ? ?. apply Huniq. by right.
Qed.

Lemma load_data_sound input output files url page_info :
  proc_pages (load_data (new_processor input output files)) !! url = Some page_info ->
  p_url page_info = url
  ∧ ∃ filename, filename ∈ listdir input files
                ∧ loadable input files filename = Some page_info.
Proof.
  unfold load_data. cbn [proc_pages input_dir proc_fs new_processor].
  intros [H|H]%load_files_sound; [by rewrite lookup_empty in H|done].
Qed.

(** X13. [load_data] on a processor without pages loads a record only from
    an entry of the input directory whose name ends in [.json] and is none
    of [index.json], [link_map.json], [visited_urls.json], and files it
    under the record's own URL. *)
Theorem loaded_pages_come_from_page_files input output files url page_info :
  proc_pages (load_data (new_processor input output files)) !! url = Some page_info ->
  p_url page_info = url
  ∧ ∃ filename,
      filename ∈ listdir input files
      ∧ Str.endswith filename ".json" = true
      ∧ (filename ∉ RESERVED_NAMES)
      ∧ files !! os_path_join input filename = Some (PageFile page_info).
Proof.
  intros (Hurl & filename & Hin & Hload)%load_data_sound.
  split; [done|]. exists filename. unfold loadable, is_page_file in Hload.
  destruct (Str.endswith filename ".json"); [|done].
  case_bool_decide; [done|]. simpl in Hload.
  destruct (files !! os_path_join input filename) as [[]|]; simplify_eq. done.
Qed.

(** * From the scraper's files to the processor *)

Section Pipeline.

Variable web : string -> option Soup.
Variable urljoin : string -> string -> string.

Local Abbreviation loop_body := (loop_body web urljoin).
Local Abbreviation turn := (turn web urljoin).
Local Abbreviation run_from := (run_from web urljoin).
Local Abbreviation reachable := (reachable web urljoin).

Lemma turn_page_files s l s' l' :
  consistent s -> page_files_stored s -> turn s l s' l' -> page_files_stored s'.
Proof.
  intros Hc Hf [ | u rest ? ? | u rest ? Hv ? | u rest soup ? Hv Hw ]; unlet;
    [done..| |].
  - intros filepath p. cbn [fs pages emit set_visited_urls]. apply Hf.
  - intros filepath p. cbn [fs pages]. unfold fs_after.
    set (page_info := extract_page_info urljoin soup u).
    assert (<[page_filepath s page_info := PageFile page_info]> (fs s) !! filepath
            = Some (PageFile p) ->
            <[u := page_info]> (pages s) !! p_url p = Some p) as Hbase.
    { intros [[_ [= <-]]|[_ Hold]]%lookup_insert_Some.
      - subst page_info. rewrite extract_page_info_url. apply lookup_insert_eq.
      - pose proof (Hf _ _ Hold) as Hp. rewrite lookup_insert_ne; [done|].
        intros ->. apply Hv, (pages_visited s Hc), elem_of_dom. by eexists. }
    destruct (_ =? 0); [|exact Hbase].
    intros [[_ [=]]|[_ Hin]]%lookup_insert_Some.
    apply lookup_insert_Some in Hin as [[_ [=]]|[_ Hin]]. by apply Hbase.
Qed.

Lemma run_from_page_files s0 s :
  consistent s0 -> page_files_stored s0 -> run_from s0 s -> page_files_stored s.
Proof.
  intros Hc H0. induction 1 as [ | s l Hrun IH | s _ IH | s _ IH ]; [done| | |].
  - eapply turn_page_files; [|exact IH|apply loop_body_turn].
    by eapply run_from_consistent.
  - intros filepath p. rewrite save_progress_fs.
    destruct (save_progress_fields s) as (_ & -> & _).
    intros [[_ [=]]|[_ H]]%lookup_insert_Some.
    apply lookup_insert_Some in H as [[_ [=]]|[_ H]]. exact (IH _ _ H).
  - intros filepath p. destruct (create_index_fields s) as (_ & -> & _).
    destruct s. cbn. intros [[_ [=]]|[_ H]]%lookup_insert_Some. exact (IH _ _ H).
Qed.

(** X14. Of a scraper that started on an empty file system, the processor
    loads only records of the scraper's page store, each under its own URL
    and unchanged; and it loads every record of the page store whose page
    file still holds it and is not named like one of the files that
    [load_data] skips. *)
Theorem processor_loads_the_stored_pages base output d processed s url page_info :
  run_from (init base output d ∅) s ->
  let loaded := proc_pages (load_data (new_processor output processed (fs s))) in
  (loaded !! url = Some page_info -> pages s !! url = Some page_info)
  ∧ (pages s !! url = Some page_info ->
     fs s !! page_filepath s page_info = Some (PageFile page_info) ->
     page_filename url +:+ ".json" ∉ RESERVED_NAMES ->
     loaded !! url = Some page_info).
Proof.
  intros Hrun loaded.
  assert (page_files_stored s) as Hfiles.
  { eapply run_from_page_files; [apply init_consistent| |exact Hrun].
    intros filepath p. simpl. by rewrite lookup_empty. }
  assert (output_dir s = output) as Hout.
  { by destruct (run_from_config web urljoin _ _ Hrun) as (_ & -> & _). }
  split.
  - intros (Hurl & filename & _ & Hload)%load_data_sound.
    unfold loadable in Hload. destruct (is_page_file filename); [|done].
    destruct (fs s !! os_path_join output filename) as [[q| | | |]|] eqn:Hfile;
      simplify_eq.
    exact (Hfiles _ _ Hfile).
  - intros Hp Hfile Hres.
    assert (reachable s) as Hr by (by exists base, output, d, ∅).
    assert (p_url page_info = url) as Hurl.
    { destruct (stored_page_source web urljoin s url page_info Hr Hp)
        as (soup & _ & ->).
      apply extract_page_info_url. }
    unfold page_filepath in Hfile. rewrite Hout, Hurl in Hfile.
    subst loaded. unfold load_data. cbn [proc_pages input_dir proc_fs new_processor].
    apply (load_files_complete _ _ _ _ _ _ (page_filename url +:+ ".json")).
    + unfold listdir. apply elem_of_remove_dups, list_elem_of_omap.
      eexists (_, _). split; [by apply elem_of_map_to_list|]. cbn [fst].
      apply entry_name_join, page_filename_no_slash.
    + unfold loadable, is_page_file. rewrite endswith_app, bool_decide_false by done.
      cbn [negb andb]. by rewrite Hfile.
    + done.
    + intros name other _ Hload Hother. unfold loadable in Hload.
      destruct (is_page_file name); [|done].
      destruct (fs s !! os_path_join output name) as [[q| | | |]|] eqn:E; simplify_eq.
      pose proof (Hfiles _ _ E) as Hq. rewrite Hother, Hp in Hq. by injection Hq.
Qed.

End Pipeline.

(** * Categories *)

Lemma split_all_parts c s part :
  part ∈ split_all c s -> Str.mem c part = false.
Proof.
  revert part. induction s as [|d s IH]; intros part; cbn [split_all].
  { by intros ->%list_elem_of_singleton. }
  destruct (Ascii.eqb c d) eqn:E.
  - intros [->|?]%elem_of_cons; [done|by apply IH].
  - destruct (split_all c s) as [|first parts].
    + intros ->%list_elem_of_singleton. cbn [Str.mem]. by rewrite E.
    + intros [->|?]%elem_of_cons.
      * cbn [Str.mem]. rewrite E. apply IH. by left.
      * apply IH. by right.
Qed.

Lemma category_of_spec url :
  category_of url ≠ "" ∧ Str.mem "/" (category_of url) = false.
Proof.
  unfold category_of.
  destruct (split_all "/" _) as [|first parts] eqn:E; [done|].
  destruct (String.eqb first "") eqn:Hfirst; [done|].
  split; [by apply String.eqb_neq|].
  apply (split_all_parts "/" (Str.rstrip is_slash
           (Str.lstrip is_slash (path (urlparse url))))).
  rewrite E. by left.
Qed.

Lemma categorize_lookup items categories c :
  foldl add_to_category categories items !! c
  = match filter (λ url, category_of url = c) items.*1 with
    | [] => categories !! c
    | urls => Some (default [] (categories !! c) ++ urls)
    end.
Proof.
  revert categories. induction items as [|[u p] items IH]; intros categories; [done|].
  cbn [foldl fmap list_fmap fst]. rewrite IH. unfold add_to_category. cbn [fst].
  destruct (decide (category_of u = c)) as [<-|Hne].
  - rewrite filter_cons_True by done. rewrite lookup_insert_eq. cbn [default from_option id].
    destruct (filter _ _); [done|]. by rewrite <- app_assoc.
  - rewrite filter_cons_False by done. by rewrite lookup_insert_ne.
Qed.

(** X15. [categorize_pages], started without categories, puts every loaded
    page URL into exactly one category list, the one named by the first
    part of its path (["root"] when there is none); no category has an empty
    name, a [/] in its name, an empty list, or a URL twice; the category map
    is what is written to [categories.json], and the pages are as before. *)
Theorem categories_partition_the_pages p :
  let r := categorize_pages ∅ p in
  (∀ category urls,
     r.1 !! category = Some urls ->
     category ≠ "" ∧ Str.mem "/" category = false
     ∧ urls ≠ [] ∧ NoDup urls
     ∧ ∀ url, url ∈ urls
              ↔ is_Some (proc_pages p !! url) ∧ category_of url = category)
  ∧ (∀ url, is_Some (proc_pages p !! url) ->
            ∃ urls, r.1 !! category_of url = Some urls ∧ url ∈ urls)
  ∧ proc_fs r.2 !! os_path_join (proc_output_dir p) "categories.json"
    = Some (LinkMapFile r.1)
  ∧ proc_pages r.2 = proc_pages p.
Proof.
  intros r. subst r. unfold categorize_pages. cbn [fst snd proc_fs proc_pages].
  assert (∀ url, url ∈ (map_to_list (proc_pages p)).*1 ↔ is_Some (proc_pages p !! url))
    as Hkeys.
  { intros url. rewrite list_elem_of_fmap. split.
    - intros ([u q] & -> & Hin). apply elem_of_map_to_list in Hin. by eexists.
    - intros [q Hq]. exists (url, q). split; [done|]. by apply elem_of_map_to_list. }
  split_and!; [| |apply lookup_insert_eq|done].
  - intros category urls. rewrite categorize_lookup, lookup_empty.
    destruct (filter _ _) as [|u urls'] eqn:E; [done|]. intros [= <-].
    assert (∀ url, url ∈ u :: urls'
                   ↔ is_Some (proc_pages p !! url) ∧ category_of url = category)
      as Hin.
    { intros url. rewrite <- E, list_elem_of_filter, Hkeys. tauto. }
    assert (category_of u = category) as <-.
    { apply (Hin u). by left. }
    split_and!; [apply category_of_spec..|done| |exact Hin].
    rewrite <- E. apply NoDup_filter, NoDup_fst_map_to_list.
  - intros url Hurl. rewrite categorize_lookup, lookup_empty.
    assert (url ∈ filter (λ u, category_of u = category_of url)
                    (map_to_list (proc_pages p)).*1) as Hin.
    { apply list_elem_of_filter. split; [done|]. by apply Hkeys. }
    destruct (filter _ _) as [|u urls']; [by apply elem_of_nil in Hin|].
    by eexists.
Qed.

(** * HTML file names *)

Lemma safe_char_equals c : safe_char (equals_to_underscore c) = safe_char c.
Proof. by destruct c as [[] [] [] [] [] [] [] []]. Qed.

Lemma map_safe_equals s :
  Str.map safe_char (Str.map equals_to_underscore s) = Str.map safe_char s.
Proof.
  induction s as [|c s IH]; [done|]. cbn [Str.map]. by rewrite safe_char_equals, IH.
Qed.

(** X16. For a URL that is ASCII text with no bracket in its network
    location, [get_html_filename] gives a name of ASCII letters, digits,
    [_], [-] and [.] only. It is the page file name of the same URL followed
    by [.html], except for a URL with an empty path and a query: there the
    page file name begins with [index_] and the HTML name with [_]. (The
    hypothesis keeps the statement to the URLs on which [urlparse] returns
    and [is_word] is Python's class.) *)
Theorem html_name_follows_page_name url :
  plain_url url = true ->
  let parsed_url := urlparse url in
  let exceptional :=
    String.eqb (path parsed_url) "" && negb (String.eqb (query parsed_url) "") in
  Str.forallb safe_name_char (get_html_filename url) = true
  ∧ (if exceptional
     then get_html_filename url
          = "_" +:+ Str.map safe_char (query parsed_url) +:+ ".html"
          ∧ page_filename url = "index_" +:+ Str.map safe_char (query parsed_url)
     else get_html_filename url = page_filename url +:+ ".html").
Proof.
  intros _ parsed_url exceptional. subst exceptional parsed_url.
  unfold get_html_filename, page_filename.
  set (p := path (urlparse url)). set (q := query (urlparse url)).
  split.
  - rewrite forallb_app. destruct (String.eqb (Str.map safe_char _) "").
    + reflexivity.
    + by rewrite forallb_map_safe.
  - destruct (String.eqb p "") eqn:Ep; destruct (String.eqb q "") eqn:Eq;
      cbn [negb andb].
    + apply String.eqb_eq in Ep. by rewrite Ep.
    + apply String.eqb_eq in Ep. rewrite Ep. cbn [Str.map String.eqb].
      rewrite !map_app, map_safe_equals. done.
    + assert (String.eqb (Str.map slash_to_underscore p) "" = false) as ->.
      { apply String.eqb_neq. rewrite map_empty. by apply String.eqb_neq. }
      assert (String.eqb (Str.map safe_char (Str.map slash_to_underscore p)) ""
              = false) as ->; [|done].
      apply String.eqb_neq. rewrite !map_empty. by apply String.eqb_neq.
    + assert (String.eqb (Str.map slash_to_underscore p) "" = false) as ->.
      { apply String.eqb_neq. rewrite map_empty. by apply String.eqb_neq. }
      rewrite !map_app, map_safe_equals.
      assert (String.eqb (Str.map safe_char (Str.map slash_to_underscore p)
                          +:+ Str.map safe_char "_" +:+ Str.map safe_char q) ""
              = false) as ->.
      { apply String.eqb_neq. intros ?%append_empty%map_empty%map_empty.
        by apply String.eqb_neq in Ep. }
      by rewrite <- !append_assoc.
Qed.

(** * What a whole run leaves behind *)

Section Runs.

Variable web : string -> option Soup.
Variable urljoin : string -> string -> string.

Local Abbreviation loop_body := (loop_body web urljoin).
Local Abbreviation iterate := (iterate web urljoin).
Local Abbreviation crawl := (crawl web urljoin).
Local Abbreviation run := (run web urljoin).
Local Abbreviation turn := (turn web urljoin).
Local Abbreviation run_from := (run_from web urljoin).
Local Abbreviation extract_page_info := (extract_page_info urljoin).

Lemma index_path_differs s :
  os_path_join (output_dir s) "index.json" ≠ link_map_path s
  ∧ os_path_join (output_dir s) "index.json" ≠ visited_urls_path s.
Proof.
  unfold link_map_path, visited_urls_path, os_path_join. simpl.
  split; destruct (_ || _); intros E; repeat apply String.app_inj in E; done.
Qed.

Lemma create_index_fs s :
  ∃ entries,
    fs (create_index s)
    = <[os_path_join (output_dir s) "index.json" := IndexFile (size (pages s)) entries]>
        (fs s)
    ∧ output_dir (create_index s) = output_dir s.
Proof. eexists. by destruct s. Qed.

(** X17. When [run] returns, [link_map.json] and [visited_urls.json] hold
    the link map and the visited set of the returned scraper: the crawl's
    final [save_progress] wrote them and [create_index] touches neither the
    two files nor the two fields. *)
Theorem run_leaves_checkpoints_of_the_final_state start s :
  let r := run start s in
  fs r !! link_map_path r = Some (LinkMapFile (link_map r))
  ∧ fs r !! visited_urls_path r = Some (VisitedFile (elements (visited_urls r)))
  ∧ output_dir r = output_dir s.
Proof.
  intros r. subst r. unfold run, crawl.
  set (s1 := (iterate MAX_PAGES s (start_locals s start)).1).
  destruct (create_index_fs (save_progress s1)) as (entries & Hfs & Hout).
  destruct (create_index_fields (save_progress s1)) as (-> & _ & -> & _).
  destruct (save_progress_fields s1) as (-> & _ & -> & _).
  assert (output_dir (save_progress s1) = output_dir s1) as Hout1 by (by destruct s1).
  assert (output_dir s1 = output_dir s) as Hout0.
  { by destruct (run_from_config web urljoin s s1 (iterate_run_from web urljoin _ _ _))
      as (_ & ? & _). }
  destruct (index_path_differs s1) as [Hl Hv].
  unfold link_map_path, visited_urls_path in *.
  rewrite Hfs, Hout, Hout1, save_progress_fs.
  rewrite Hout1 in Hfs. clear Hfs.
  destruct (checkpoint_lookup (fs s1) s1 (link_map s1) (elements (visited_urls s1)))
    as [H1 H2].
  unfold link_map_path, visited_urls_path in *.
  split_and!; [|by rewrite lookup_insert_ne|congruence].
  by rewrite lookup_insert_ne.
Qed.

(** *** The crawl stays on the site *)

Lemma extracted_links_valid soup url target :
  target ∈ l_url <$> p_links (extract_page_info soup url) ->
  is_valid_url target = true.
Proof.
  rewrite kept_links. intros Hin%list_elem_of_In. by apply filter_In in Hin as [_ ?].
Qed.

Lemma turn_on_site (P : string -> Prop) s0 s l s' l' :
  (∀ target, is_valid_url target = true -> Str.contains DOC_HOST target = true ->
             P target) ->
  turn s l s' l' ->
  (∀ url, url ∈ urls_to_visit l -> P url) ->
  (∀ url, url ∈ fetched (trace s) -> url ∈ fetched (trace s0) ∨ P url) ->
  (∀ url, url ∈ urls_to_visit l' -> P url)
  ∧ (∀ url, url ∈ fetched (trace s') -> url ∈ fetched (trace s0) ∨ P url).
Proof.
  intros HP [ | u rest E ? | u rest E Hv ? | u rest soup E Hv Hw ] Hq Ht; unlet.
  - done.
  - split; [|done]. intros url Hin. apply Hq. rewrite E. by right.
  - split.
    + intros url Hin. apply Hq. rewrite E. by right.
    + intros url. cbn [trace emit set_visited_urls]. rewrite fetched_app.
      intros [?| ->%list_elem_of_singleton]%elem_of_app; [by apply Ht|].
      right. apply Hq. rewrite E. by left.
  - split.
    + intros url. cbn [urls_to_visit].
      destruct (enqueue_all_spec ({[u]} ∪ visited_urls s)
                  (l_url <$> p_links (extract_page_info soup u)) rest)
        as (added & -> & _ & Hadded).
      intros [?|Hin]%elem_of_app.
      * apply Hq. rewrite E. by right.
      * destruct (Hadded url Hin) as (_ & _ & Hlink & Hhost).
        apply HP; [|done]. by eapply extracted_links_valid.
    + intros url. cbn [trace].
      rewrite fetched_app, fetched_visit_events, extract_page_info_url.
      intros [?| ->%list_elem_of_singleton]%elem_of_app; [by apply Ht|].
      right. apply Hq. rewrite E. by left.
Qed.

Lemma iterate_on_site (P : string -> Prop) s0 n s l :
  (∀ target, is_valid_url target = true -> Str.contains DOC_HOST target = true ->
             P target) ->
  (∀ url, url ∈ urls_to_visit l -> P url) ->
  (∀ url, url ∈ fetched (trace s) -> url ∈ fetched (trace s0) ∨ P url) ->
  ∀ url, url ∈ fetched (trace (iterate n s l).1) -> url ∈ fetched (trace s0) ∨ P url.
Proof.
  intros HP. revert s l. induction n as [|n IH]; intros s l Hq Ht; [done|].
  rewrite iterate_S. destruct (loop_cond l); [|done].
  destruct (turn_on_site P s0 _ _ _ _ HP (loop_body_turn web urljoin s l) Hq Ht).
  by apply IH.
Qed.

(** X18. A crawl requests nothing but its start URL and link targets that
    [is_valid_url] accepted and that have the documentation host in them:
    every request in the trace after the crawl that was not there before
    is for such a URL. *)
Theorem crawl_requests_start_and_valid_links s start url :
  url ∈ fetched (trace (crawl start s)) ->
  url ∈ fetched (trace s)
  ∨ url = default (base_url s) start
  ∨ (is_valid_url url = true ∧ Str.contains DOC_HOST url = true).
Proof.
  unfold crawl.
  destruct (save_progress_fields (iterate MAX_PAGES s (start_locals s start)).1)
    as (_ & _ & _ & ->).
  rewrite fetched_app. cbn [fetched omap list_omap]. rewrite app_nil_r.
  apply (iterate_on_site
           (λ u, u = default (base_url s) start
                 ∨ (is_valid_url u = true ∧ Str.contains DOC_HOST u = true))).
  - intros target ? ?. by right.
  - intros u ->%list_elem_of_singleton. by left.
  - intros u ?. by left.
Qed.

End Runs.

(** * The further properties on the example sites *)

Lemma with_pdf_crawl_page :
  let s := crawl Site.with_pdf Site.urljoin None new_scraper in
  pages s !! BASE_URL
  = Some (mkPage BASE_URL "Page" "Text"
            [mkLink (Site.child 1) "link"; mkLink (Site.child 2) "link"]).
Proof. vm_compute. reflexivity. Defined.

Lemma every_url_requested_once_witness :
  let s := crawl Site.with_pdf Site.urljoin None new_scraper in
  NoDup (fetched (trace s))
  ∧ (BASE_URL ∈ visited_urls s ↔ BASE_URL ∈ fetched (trace s)).
Proof.
  intros s.
  destruct (every_url_requested_once Site.with_pdf Site.urljoin s
              (crawled_reachable _ _ _)) as [Hnd Hiff].
  split; [exact Hnd|exact (Hiff BASE_URL)].
Defined.

Lemma stored_pages_are_extractions_witness :
  let s := crawl Site.with_pdf Site.urljoin None new_scraper in
  let page_info :=
    mkPage BASE_URL "Page" "Text"
      [mkLink (Site.child 1) "link"; mkLink (Site.child 2) "link"] in
  pages s !! BASE_URL = Some page_info
  ∧ (∃ soup, Site.with_pdf BASE_URL = Some soup
             ∧ page_info = extract_page_info Site.urljoin soup BASE_URL)
  ∧ p_url page_info = BASE_URL
  ∧ BASE_URL ∈ visited_urls s.
Proof.
  intros s page_info. split; [exact with_pdf_crawl_page|].
  exact (stored_pages_are_extractions Site.with_pdf Site.urljoin s BASE_URL page_info
           (crawled_reachable _ _ _) with_pdf_crawl_page).
Defined.

Lemma records_are_never_changed_witness :
  let s := crawl Site.with_pdf Site.urljoin None new_scraper in
  let s' := crawl Site.with_pdf Site.urljoin (Some (Site.child 1)) s in
  pages s ⊆ pages s' ∧ link_map s ⊆ link_map s' ∧ visited_urls s ⊆ visited_urls s'.
Proof.
  intros s s'.
  exact (records_are_never_changed Site.with_pdf Site.urljoin s s'
           (crawled_reachable _ _ _) (crawl_run_from _ _ _ _)).
Defined.

Lemma one_pause_per_stored_page_witness :
  let s := crawl Site.with_pdf Site.urljoin None new_scraper in
  sleeps (trace s) = replicate (size (pages s)) (delay s).
Proof.
  intros s.
  exact (one_pause_per_stored_page Site.with_pdf Site.urljoin s
           (crawled_reachable _ _ _)).
Defined.

Lemma requests_follow_queue_order_witness :
  let before := iterate Site.with_pdf Site.urljoin 1 new_scraper
                  (start_locals new_scraper None) in
  let after := iterate Site.with_pdf Site.urljoin (1 + 2) new_scraper
                 (start_locals new_scraper None) in
  (fetched (trace before.1) ++ urls_to_visit before.2)
    `prefix_of` (fetched (trace after.1) ++ urls_to_visit after.2).
Proof.
  exact (requests_follow_queue_order Site.with_pdf Site.urljoin new_scraper None 1 2
           (not_elem_of_empty _)).
Defined.

Lemma fetched_links_are_queued_witness :
  let soup := Site.page [Site.child 1; Site.child 2; Site.guide_pdf] in
  let link := mkLink (Site.child 1) "link" in
  let r := loop_body Site.with_pdf Site.urljoin new_scraper (mkLocals [BASE_URL] 0) in
  link ∈ p_links (extract_page_info Site.urljoin soup BASE_URL)
  ∧ (l_url link ∈ visited_urls r.1 ∨ l_url link ∈ urls_to_visit r.2).
Proof.
  intros soup link r.
  assert (link ∈ p_links (extract_page_info Site.urljoin soup BASE_URL)) as Hin.
  { vm_compute. by left. }
  split; [exact Hin|].
  exact (fetched_links_are_queued Site.with_pdf Site.urljoin new_scraper BASE_URL [] 0
           soup link (not_elem_of_empty _) eq_refl Hin eq_refl).
Defined.

Lemma crawl_below_cap_is_complete_witness :
  let s := crawl Site.with_pdf Site.urljoin None new_scraper in
  let r := iterate Site.with_pdf Site.urljoin MAX_PAGES new_scraper
             (start_locals new_scraper None) in
  page_counter r.2 < MAX_PAGES ∧ Site.child 2 ∈ visited_urls s.
Proof.
  intros s r.
  assert (page_counter r.2 < MAX_PAGES) as Hlt.
  { vm_compute. repeat constructor. }
  split; [exact Hlt|].
  refine (crawl_below_cap_is_complete Site.with_pdf Site.urljoin new_scraper None
            BASE_URL _ (mkLink (Site.child 2) "link")
            (init_consistent _ _ _ _) Hlt with_pdf_crawl_page _ _ eq_refl).
  - apply lookup_empty.
  - right. left.
Defined.

Lemma loaded_pages_come_from_page_files_witness :
  let page_info := mkPage Site.faq_http "FAQ" "" [] in
  let files := fs (save_page page_info new_scraper).2 in
  proc_pages (load_data (new_processor OUTPUT_DIR "umich_arc_processed" files))
    !! Site.faq_http = Some page_info
  ∧ ∃ filename,
      filename ∈ listdir OUTPUT_DIR files
      ∧ Str.endswith filename ".json" = true
      ∧ (filename ∉ RESERVED_NAMES)
      ∧ files !! os_path_join OUTPUT_DIR filename = Some (PageFile page_info).
Proof.
  intros page_info files.
  assert (proc_pages (load_data (new_processor OUTPUT_DIR "umich_arc_processed" files))
            !! Site.faq_http = Some page_info) as Hload.
  { vm_compute. reflexivity. }
  split; [exact Hload|].
  exact (proj2 (loaded_pages_come_from_page_files _ _ _ _ _ Hload)).
Defined.

Lemma processor_loads_the_stored_pages_witness :
  let s := crawl Site.with_pdf Site.urljoin None new_scraper in
  let loaded :=
    proc_pages (load_data (new_processor OUTPUT_DIR "umich_arc_processed" (fs s))) in
  ∃ page_info,
    pages s !! BASE_URL = Some page_info ∧ loaded !! BASE_URL = Some page_info.
Proof.
  intros s loaded. eexists. split; [exact with_pdf_crawl_page|].
  refine (proj2 (processor_loads_the_stored_pages Site.with_pdf Site.urljoin
                   BASE_URL OUTPUT_DIR DELAY "umich_arc_processed" s BASE_URL _
                   (crawl_run_from _ _ _ _))
            with_pdf_crawl_page _ _).
  - vm_compute. reflexivity.
  - apply (bool_decide_unpack _). vm_compute. exact I.
Defined.

Lemma crawl_requests_start_and_valid_links_witness :
  let s := crawl Site.with_pdf Site.urljoin None new_scraper in
  let url := Site.child 1 in
  url ∈ fetched (trace s)
  ∧ (url ∈ fetched (trace new_scraper)
     ∨ url = default (base_url new_scraper) None
     ∨ (is_valid_url url = true ∧ Str.contains DOC_HOST url = true)).
Proof.
  intros s url.
  assert (url ∈ fetched (trace s)) as Hin.
  { vm_compute. right. left. }
  split; [exact Hin|].
  exact (crawl_requests_start_and_valid_links Site.with_pdf Site.urljoin new_scraper
           None url Hin).
Defined.

Lemma page_file_name_is_safe_witness :
  let page_info := mkPage Site.faq_http "FAQ" "" [] in
  let name := page_filename (p_url page_info) in
  plain_url (p_url page_info) = true
  ∧ name ≠ ""
  ∧ Str.forallb safe_name_char name = true
  ∧ entry_name (output_dir new_scraper) (save_page page_info new_scraper).1
    = Some (name +:+ ".json").
Proof.
  intros page_info name.
  assert (plain_url (p_url page_info) = true) as Hp by (vm_compute; reflexivity).
  split; [exact Hp|].
  exact (page_file_name_is_safe new_scraper page_info Hp).
Defined.

Lemma html_name_follows_page_name_witness :
  let url := "https://documentation.its.umich.edu?page=1" in
  plain_url url = true
  ∧ Str.forallb safe_name_char (get_html_filename url) = true
  ∧ get_html_filename url = "_page_1.html"
  ∧ page_filename url = "index_page_1".
Proof.
  intros url.
  assert (plain_url url = true) as Hp by (vm_compute; reflexivity).
  destruct (html_name_follows_page_name url Hp) as [Hsafe Hname].
  split_and!; [exact Hp|exact Hsafe|exact (proj1 Hname)|exact (proj2 Hname)].
Defined.
